(** * Client-side file streaming of the allocation filesystem API

    A model of the Go package [api] (stream frames, the
    [AllocFS.Stream] decoder loop and the [FrameReader]) together with the
    writer-side [StreamFramer] batching rules, and the properties that the
    specification states about them.

    Conventions.
    - Go [int64] and [int] values are integers in [Z]; [to_int] writes out
      the conversion [int(x)] on a 64-bit target.
    - [[]byte] is [list byte]; a nil slice and an empty slice are both [[]],
      which is all that [len] can tell apart.
    - Go [string] is [string] (a sequence of 8-bit characters).
    - A call that may panic returns an [outcome]. *)

From Stdlib Require Import List ZArith Lia Bool String Ascii.
From Stdlib.Strings Require Import Byte.
From Stdlib Require DecimalString.
Import ListNotations.

Local Open Scope Z_scope.

(** ** Integers *)

(** Two's complement reading of the low 64 bits. *)
Definition wrap64 (x : Z) : Z := (x + 2 ^ 63) mod 2 ^ 64 - 2 ^ 63.

Definition in_int64 (x : Z) : Prop := - 2 ^ 63 <= x < 2 ^ 63.

(** [int(x)] for an [int64] [x]: [int] is 64 bits wide. *)
Definition to_int (x : Z) : Z := wrap64 x.

(** [len(s)] as a Go [int]. *)
Definition len {A : Type} (s : list A) : Z := Z.of_nat (List.length s).

(** ** Frames *)

Module StreamFrame.

(** [type StreamFrame struct], all four fields tagged [omitempty]. *)
Record t : Type := Build {
  Offset : Z;
  Data : list byte;
  File : string;
  FileEvent : string
}.

(** The zero value of the struct. *)
Definition zero : t :=
  {| Offset := 0; Data := []; File := EmptyString; FileEvent := EmptyString |}.

(** [func (s *StreamFrame) IsHeartbeat() bool] *)
Definition IsHeartbeat (s : t) : bool :=
  (len (Data s) =? 0)
  && String.eqb (FileEvent s) EmptyString
  && String.eqb (File s) EmptyString
  && (Offset s =? 0).

End StreamFrame.

(** ** Outcomes, errors and channels *)

(** A call returns, waits on a channel that has nothing to offer, or
    panics. *)
Inductive outcome (A : Type) : Type :=
| Ret (a : A)
| Blocked
| Panic.
Arguments Ret {A} a.
Arguments Blocked {A}.
Arguments Panic {A}.

(** The only non-nil error the reader returns is [io.EOF]; [None] is [nil]. *)
Inductive error : Type := EOF.

Module Chan.

(** A channel as seen by its ends: the values sent and not yet received,
    oldest first, and whether [close] was called.  A sender that waits
    for room in the buffer is not distinguished from one that has sent:
    values are neither dropped nor reordered. *)
Record t (A : Type) : Type := Build { queue : list A; closed : bool }.
Arguments Build {A} queue closed.
Arguments queue {A}.
Arguments closed {A}.

Inductive recv_result (A : Type) : Type :=
| Received (x : A) (c : t A)
| Drained
| Waiting.
Arguments Received {A} x c.
Arguments Drained {A}.
Arguments Waiting {A}.

(** [x, ok := <-c]: buffered values are delivered even after [close];
    [ok] is false only on a closed and empty channel. *)
Definition recv {A : Type} (c : t A) : recv_result A :=
  match queue c with
  | x :: q => Received x (Build q (closed c))
  | [] => if closed c then Drained else Waiting
  end.

(** [c <- x] when the channel has room for [x], which is the case as long
    as the receiver keeps up with the sender (the send that finds the
    buffer full is [StreamGoroutine.send]); sending on a closed channel
    panics. *)
Definition send {A : Type} (c : t A) (x : A) : option (t A) :=
  if closed c then None else Some (Build (queue c ++ [x]) false).

(** [close(c)]; closing a closed channel panics. *)
Definition close {A : Type} (c : t A) : option (t A) :=
  if closed c then None else Some (Build (queue c) true).

(** [make(chan A, n)] as its ends find it: empty and open.  The capacity
    [n] matters to a sender that finds the buffer full, which passes it to
    [StreamGoroutine.send]. *)
Definition make {A : Type} : t A := Build [] false.

End Chan.

(** A [chan struct{}] used as a one-shot signal, as [close] sees it. *)
Inductive signal : Type := SigNil | SigOpen | SigClosed.

(** [close(ch)] panics on a nil channel and on a closed one. *)
Definition close_signal (s : signal) : option signal :=
  match s with
  | SigOpen => Some SigClosed
  | SigNil | SigClosed => None
  end.

(** ** Quoting *)

Module strconv.

Definition lowerhex : string := "0123456789abcdef".

Definition hex_digit (n : N) : ascii :=
  match String.get (N.to_nat n) lowerhex with
  | Some c => c
  | None => "0"%char
  end.

Definition dquote : ascii := ascii_of_N 34.
Definition backslash : ascii := ascii_of_N 92.

(** One character of [strconv.Quote] on a string of ASCII characters:
    the quote and the backslash are backslashed, printable characters
    stand for themselves, the usual control characters have a letter,
    the others are written [\xhh]. *)
Definition escape_ascii (c : ascii) : string :=
  let n := N_of_ascii c in
  if ((n =? 34) || (n =? 92))%N then String backslash (String c EmptyString)
  else if ((32 <=? n) && (n <=? 126))%N then String c EmptyString
  else match n with
       | 7%N => "\a"
       | 8%N => "\b"
       | 12%N => "\f"
       | 10%N => "\n"
       | 13%N => "\r"
       | 9%N => "\t"
       | 11%N => "\v"
       | _ => "\x" ++ String (hex_digit (N.shiftr n 4))
                       (String (hex_digit (N.land n 15)) EmptyString)
       end%string.

Fixpoint escape_all (s : string) : string :=
  match s with
  | EmptyString => EmptyString
  | String c s' => (escape_ascii c ++ escape_all s')%string
  end.

(** [strconv.Quote], which is what the verb [%q] prints for a string,
    restricted to strings of ASCII characters (beyond them Go decodes
    UTF-8 and consults its tables of printable runes). *)
Definition quote_ascii (s : string) : string :=
  String dquote (escape_all s ++ String dquote EmptyString).

(** No quote, no backslash, nothing outside the printable range. *)
Definition plain (c : ascii) : bool :=
  let n := N_of_ascii c in
  ((32 <=? n) && (n <=? 126) && negb (n =? 34) && negb (n =? 92))%N.

Fixpoint all_plain (s : string) : bool :=
  match s with
  | EmptyString => true
  | String c s' => plain c && all_plain s'
  end.

End strconv.

(** ** The decoder loop of [AllocFS.Stream] *)

Module AllocFS.

Import StreamFrame.

(** The goroutine started by [Stream], run with a reader that keeps up:
    no send finds the buffer full ([StreamGoroutine.loop] is the loop with
    the buffer of ten frames and a reader that may stop).  [body] lists
    the frames that [dec.Decode] yields before its first error (the end of
    the response body or malformed input), each decoded into a fresh
    [StreamFrame]; [cancelled i] tells whether the [cancel] case of the
    [select] is ready at iteration [i]; [frames] is the output channel. *)
Fixpoint Stream_loop (cancelled : nat -> bool) (i : nat)
    (body : list StreamFrame.t) (frames : Chan.t StreamFrame.t)
    {struct body} : outcome (Chan.t StreamFrame.t) :=
  if cancelled i then Ret frames
  else
    match body with
    | [] =>
        match Chan.close frames with
        | Some c => Ret c
        | None => Panic
        end
    | frame :: rest =>
        if IsHeartbeat frame then Stream_loop cancelled (S i) rest frames
        else
          match Chan.send frames frame with
          | Some c => Stream_loop cancelled (S i) rest c
          | None => Panic
          end
    end.

(** A frame that is not a heartbeat. *)
Definition live (fr : StreamFrame.t) : bool := negb (IsHeartbeat fr).

(** The frames for which [dec.Decode] returned before the loop ended. *)
Fixpoint decoded (cancelled : nat -> bool) (i : nat)
    (body : list StreamFrame.t) {struct body} : list StreamFrame.t :=
  if cancelled i then []
  else
    match body with
    | [] => []
    | frame :: rest => frame :: decoded cancelled (S i) rest
    end.

(** [frames := make(chan *StreamFrame, 10)], then the goroutine. *)
Definition Stream (cancelled : nat -> bool) (body : list StreamFrame.t)
    : outcome (Chan.t StreamFrame.t) :=
  Stream_loop cancelled 0%nat body Chan.make.

End AllocFS.

(** ** The decoder loop on its bounded channel *)

Module StreamGoroutine.

Import StreamFrame.

(** [frames := make(chan *StreamFrame, 10)] *)
Definition capacity : nat := 10.

(** What becomes of a send: the value is buffered; the buffer is full and
    the sender waits for a receive; the channel is closed and the sender
    panics. *)
Inductive send_result (A : Type) : Type :=
| Sent (c : Chan.t A)
| Full
| OnClosed.
Arguments Sent {A} c.
Arguments Full {A}.
Arguments OnClosed {A}.

(** [c <- x] on a channel made with room for [cap] values. *)
Definition send {A : Type} (cap : nat) (c : Chan.t A) (x : A)
    : send_result A :=
  if Chan.closed c then OnClosed
  else if (List.length (Chan.queue c) <? cap)%nat
       then Sent (Chan.Build (Chan.queue c ++ [x]) false)
       else Full.

(** The other end of the channel: [n] receives, as far as values are
    buffered, added to what the reader has got. *)
Definition receive {A : Type} (n : nat) (c : Chan.t A) (got : list A)
    : Chan.t A * list A :=
  (Chan.Build (skipn n (Chan.queue c)) (Chan.closed c),
   got ++ firstn n (Chan.queue c)).

(** The channel, the frames the reader has received from it, and the
    frames [dec.Decode] has returned so far. *)
Record state : Type := State {
  frames : Chan.t StreamFrame.t;
  received : list StreamFrame.t;
  seen : list StreamFrame.t
}.

(** How the goroutine ends: it returns; it waits for ever in the send of
    a frame; it panics. *)
Inductive ending : Type :=
| Returned
| Stuck (frame : StreamFrame.t)
| Panicked.

(** The loop of the goroutine.  [cancelled i] tells whether the [cancel]
    case of the [select] is ready at iteration [i]; [body] lists the
    frames that [dec.Decode] yields before its first error; [takes i] is
    the number of receives the reader makes while the loop is at iteration
    [i], before the send of that iteration has completed.  A send that
    finds ten frames buffered after those receives never completes: the
    reader has stopped. *)
Fixpoint loop (cancelled : nat -> bool) (takes : nat -> nat) (i : nat)
    (body : list StreamFrame.t) (st : state) {struct body}
    : ending * state :=
  if cancelled i then (Returned, st)
  else
    match body with
    | [] =>
        match Chan.close (frames st) with
        | Some c => (Returned, State c (received st) (seen st))
        | None => (Panicked, st)
        end
    | frame :: rest =>
        if IsHeartbeat frame then
          loop cancelled takes (S i) rest
            (State (frames st) (received st) (seen st ++ [frame]))
        else
          let (c, got) := receive (takes i) (frames st) (received st) in
          match send capacity c frame with
          | Sent c' =>
              loop cancelled takes (S i) rest
                (State c' got (seen st ++ [frame]))
          | Full => (Stuck frame, State c got (seen st ++ [frame]))
          | OnClosed => (Panicked, State c got (seen st ++ [frame]))
          end
    end.

(** The goroutine of [Stream] on the channel just made. *)
Definition run (cancelled : nat -> bool) (takes : nat -> nat)
    (body : list StreamFrame.t) : ending * state :=
  loop cancelled takes 0%nat body (State Chan.make [] []).

(** The frames delivered on the channel: those the reader has received
    and those buffered for it. *)
Definition delivered (st : state) : list StreamFrame.t :=
  received st ++ Chan.queue (frames st).

(** A data frame at offset [n], and eleven of them. *)
Definition numbered (n : nat) : StreamFrame.t :=
  {| Offset := Z.of_nat n; Data := [x61]; File := "foo";
     FileEvent := EmptyString |}.

Definition eleven : list StreamFrame.t := List.map numbered (seq 0 11).

End StreamGoroutine.

(** ** FrameReader *)

Module FrameReader.

Import StreamFrame.

(** [type FrameReader struct].  The fields [frames] and [cancelCh] refer
    to channels shared with other goroutines; their states are passed to
    [Read] and [Close] and returned by them.  A frame on the channel is a
    non-nil pointer, as [Stream] sends them. *)
Record t : Type := Build {
  closed : bool;
  frame : option StreamFrame.t;
  frameOffset : Z;
  fileEventOffset : Z;
  fileEvent : list byte;
  byteOffset : Z
}.

(** [func NewFrameReader(frames, cancelCh) *FrameReader] *)
Definition NewFrameReader : t :=
  {| closed := false; frame := None; frameOffset := 0;
     fileEventOffset := 0; fileEvent := []; byteOffset := 0 |}.

(** [func (f *FrameReader) Offset() int] *)
Definition Offset (f : t) : Z := byteOffset f.

Definition set_closed (b : bool) (f : t) : t :=
  {| closed := b; frame := frame f; frameOffset := frameOffset f;
     fileEventOffset := fileEventOffset f; fileEvent := fileEvent f;
     byteOffset := byteOffset f |}.

Definition set_frame (fr : option StreamFrame.t) (f : t) : t :=
  {| closed := closed f; frame := fr; frameOffset := frameOffset f;
     fileEventOffset := fileEventOffset f; fileEvent := fileEvent f;
     byteOffset := byteOffset f |}.

Definition set_frameOffset (o : Z) (f : t) : t :=
  {| closed := closed f; frame := frame f; frameOffset := o;
     fileEventOffset := fileEventOffset f; fileEvent := fileEvent f;
     byteOffset := byteOffset f |}.

Definition set_fileEventOffset (o : Z) (f : t) : t :=
  {| closed := closed f; frame := frame f; frameOffset := frameOffset f;
     fileEventOffset := o; fileEvent := fileEvent f;
     byteOffset := byteOffset f |}.

Definition set_fileEvent (e : list byte) (f : t) : t :=
  {| closed := closed f; frame := frame f; frameOffset := frameOffset f;
     fileEventOffset := fileEventOffset f; fileEvent := e;
     byteOffset := byteOffset f |}.

Definition set_byteOffset (o : Z) (f : t) : t :=
  {| closed := closed f; frame := frame f; frameOffset := frameOffset f;
     fileEventOffset := fileEventOffset f; fileEvent := fileEvent f;
     byteOffset := o |}.

(** [s[lo:]]; panics unless [0 <= lo <= len(s)]. *)
Definition slice_from {A : Type} (s : list A) (lo : Z) : option (list A) :=
  if (0 <=? lo) && (lo <=? len s) then Some (skipn (Z.to_nat lo) s) else None.

(** [n = copy(p, src)] with [len(p) = plen]: the bytes now in [p[:n]]. *)
Definition copy (plen : nat) (src : list byte) : list byte := firstn plen src.

Definition newline : ascii := ascii_of_N 10.

(** What a [Read] hands back: the reader, the frame channel, the bytes
    written to [p[:n]] and [err]. *)
Definition result : Type :=
  (t * Chan.t StreamFrame.t * list byte * option error)%type.

Section Read.

(** [%q] applied to a string, that is [strconv.Quote]. *)
Variable Quote : string -> string.

(** [[]byte(fmt.Sprintf("\nnomad: %q\n", ev))] *)
Definition event_marker (ev : string) : list byte :=
  list_byte_of_string
    (String newline ("nomad: " ++ Quote ev ++ String newline EmptyString)).

(** [Read] from the point where [f.frame] is the non-nil frame [fr].
    The two sums cannot wrap around: the slice before each of them
    succeeded, so each is at most the length of a slice. *)
Definition Read_frame (f : t) (fr : StreamFrame.t)
    (frames : Chan.t StreamFrame.t) (plen : nat) : outcome result :=
  let f :=
    if negb (String.eqb (FileEvent fr) EmptyString)
       && (len (fileEvent f) =? 0)
    then set_fileEventOffset 0 (set_fileEvent (event_marker (FileEvent fr)) f)
    else f in
  let l := len (fileEvent f) in
  if negb (l =? 0) && negb (l =? fileEventOffset f) then
    match slice_from (fileEvent f) (fileEventOffset f) with
    | None => Panic
    | Some src =>
        let out := copy plen src in
        Ret (set_fileEventOffset (fileEventOffset f + len out) f,
             frames, out, None)
    end
  else
    let f :=
      if len (fileEvent f) =? fileEventOffset f
      then set_fileEventOffset 0 (set_fileEvent [] f)
      else f in
    match slice_from (Data fr) (frameOffset f) with
    | None => Panic
    | Some src =>
        let out := copy plen src in
        let f := set_frameOffset (frameOffset f + len out) f in
        let f :=
          if len (Data fr) =? frameOffset f
          then set_frameOffset 0 (set_frame None f)
          else f in
        Ret (f, frames, out, None)
    end.

(** [func (f *FrameReader) Read(p []byte) (n int, err error)] with
    [len(p) = plen]. *)
Definition Read (f : t) (frames : Chan.t StreamFrame.t) (plen : nat)
    : outcome result :=
  match frame f with
  | None =>
      match Chan.recv frames with
      | Chan.Received fr frames' =>
          Read_frame
            (set_byteOffset (to_int (StreamFrame.Offset fr))
               (set_frame (Some fr) f))
            fr frames' plen
      | Chan.Drained => Ret (f, frames, [], Some EOF)
      | Chan.Waiting => Blocked
      end
  | Some fr => Read_frame f fr frames plen
  end.

(** Successive [Read] calls with buffers of the lengths [bufs], the
    bytes they return concatenated, until one returns [io.EOF].  [None]
    when the calls run out first, or one waits or panics. *)
Fixpoint read_all (bufs : list nat) (f : t) (frames : Chan.t StreamFrame.t)
    : option (list byte) :=
  match bufs with
  | [] => None
  | plen :: bufs' =>
      match Read f frames plen with
      | Ret (f', frames', out, None) =>
          option_map (app out) (read_all bufs' f' frames')
      | Ret (_, _, out, Some EOF) => Some out
      | Blocked | Panic => None
      end
  end.

(** The reader and the channel after successive [Read] calls; a call
    that returns [io.EOF], waits or panics ends the sequence. *)
Fixpoint reads (bufs : list nat) (f : t) (frames : Chan.t StreamFrame.t)
    : t * Chan.t StreamFrame.t :=
  match bufs with
  | [] => (f, frames)
  | plen :: bufs' =>
      match Read f frames plen with
      | Ret (f', frames', _, None) => reads bufs' f' frames'
      | Ret (_, _, _, Some EOF) | Blocked | Panic => (f, frames)
      end
  end.

(** What one frame contributes to the byte stream: the marker of its
    event, if it has one, then its data. *)
Definition frame_bytes (fr : StreamFrame.t) : list byte :=
  (if String.eqb (FileEvent fr) EmptyString then []
   else event_marker (FileEvent fr)) ++ Data fr.

Definition stream_bytes (frs : list StreamFrame.t) : list byte :=
  List.concat (List.map frame_bytes frs).

(** Where a reader stands between two calls while every marker has been
    handed out at most once: no current frame; [k] bytes into the marker
    of the current frame; or [k] bytes into the data of a current frame
    that has no event. *)
Inductive view : Type :=
| Idle
| InMarker (fr : StreamFrame.t) (k : nat)
| InData (fr : StreamFrame.t) (k : nat).

(** The reader that stands at [v]. *)
Definition repr (v : view) (c : bool) (bo : Z) : t :=
  match v with
  | Idle =>
      {| closed := c; frame := None; frameOffset := 0;
         fileEventOffset := 0; fileEvent := []; byteOffset := bo |}
  | InMarker fr k =>
      {| closed := c; frame := Some fr; frameOffset := 0;
         fileEventOffset := Z.of_nat k;
         fileEvent := event_marker (FileEvent fr); byteOffset := bo |}
  | InData fr k =>
      {| closed := c; frame := Some fr; frameOffset := Z.of_nat k;
         fileEventOffset := 0; fileEvent := []; byteOffset := bo |}
  end.

Definition wf_view (v : view) : Prop :=
  match v with
  | Idle => True
  | InMarker fr k =>
      FileEvent fr <> EmptyString
      /\ (k <= List.length (event_marker (FileEvent fr)))%nat
  | InData fr k =>
      FileEvent fr = EmptyString /\ (k <= List.length (Data fr))%nat
  end.

(** The bytes of the current frame still to be returned. *)
Definition pending (v : view) : list byte :=
  match v with
  | Idle => []
  | InMarker fr k => skipn k (event_marker (FileEvent fr)) ++ Data fr
  | InData fr k => skipn k (Data fr)
  end.

Definition current (v : view) : list StreamFrame.t :=
  match v with
  | Idle => []
  | InMarker fr _ | InData fr _ => [fr]
  end.

(** A bound on the calls needed to finish the current frame, and the
    frames of a queue. *)
Definition weight (v : view) : nat :=
  match v with
  | Idle => O
  | InMarker _ _ | InData _ _ => S (List.length (pending v))
  end.

Definition queue_weight (frs : list StreamFrame.t) : nat :=
  (List.length (stream_bytes frs) + List.length frs)%nat.

End Read.

(** A buffer of length [plen] takes the data of [fr] in one call whenever
    [fr] carries an event. *)
Definition fits (plen : nat) (fr : StreamFrame.t) : Prop :=
  FileEvent fr = EmptyString \/ (List.length (Data fr) <= plen)%nat.

(** [func (f *FrameReader) Close() error]; the error is always nil. *)
Definition Close (f : t) (cancelCh : signal)
    : outcome (t * signal * option error) :=
  if closed f then Ret (f, cancelCh, None)
  else
    match close_signal cancelCh with
    | None => Panic
    | Some c => Ret (set_closed true f, c, None)
    end.

(** [n] calls of [Close] in a row. *)
Fixpoint Close_times (n : nat) (f : t) (cancelCh : signal)
    : outcome (t * signal * option error) :=
  match n with
  | O => Ret (f, cancelCh, None)
  | S n' =>
      match Close f cancelCh with
      | Ret (f', c', _) => Close_times n' f' c'
      | Blocked => Blocked
      | Panic => Panic
      end
  end.

End FrameReader.

(** ** Sample frames *)

Module Sample.

Import StreamFrame.

(** The event-only frame sent when the followed file is truncated. *)
Definition truncated : StreamFrame.t :=
  {| Offset := 0; Data := []; File := "foo"; FileEvent := "file truncated" |}.

(** The frame of [TestStreamFramer_Batch]: an event and three bytes. *)
Definition batch : StreamFrame.t :=
  {| Offset := 10; Data := [x0a; x0b; x0c]; File := "foo"; FileEvent := "bar" |}.

(** Two data frames of one file. *)
Definition hel : StreamFrame.t :=
  {| Offset := 10; Data := [x68; x65; x6c]; File := "foo";
     FileEvent := EmptyString |}.

Definition lo : StreamFrame.t :=
  {| Offset := 13; Data := [x6c; x6f]; File := "foo";
     FileEvent := EmptyString |}.

(** The marker of ["bar"], byte by byte: a newline, [nomad: ], the quoted
    name, a newline. *)
Definition bar_marker : list byte :=
  [x0a; x6e; x6f; x6d; x61; x64; x3a; x20; x22; x62; x61; x72; x22; x0a].

(** The text of the marker of ["file truncated"]. *)
Definition truncated_marker : string :=
  String FrameReader.newline
    ("nomad: "
       ++ String strconv.dquote
            ("file truncated"
               ++ String strconv.dquote
                    (String FrameReader.newline EmptyString))).

End Sample.

(** ** The wire encoding of a frame *)

Module Wire.

Import StreamFrame.

(** The kinds of value a [StreamFrame] field holds. *)
Inductive value : Type :=
| VInt (z : Z)
| VBytes (b : list byte)
| VString (s : string).

(** What [omitempty] calls empty: a zero number, a slice or a string of
    length zero. *)
Definition isEmptyValue (v : value) : bool :=
  match v with
  | VInt z => z =? 0
  | VBytes b => len b =? 0
  | VString s => (String.length s =? 0)%nat
  end.

(** A struct field as the encoder sees it: the key it is written under,
    the [omitempty] option of its tag, and its value. *)
Record field : Type := Field {
  key : string;
  omitempty : bool;
  val : value
}.

(** The fields of [StreamFrame] in declaration order; every tag is
    [json:",omitempty"], so each key is the Go field name. *)
Definition fields (s : StreamFrame.t) : list field :=
  [ Field "Offset" true (VInt (Offset s));
    Field "Data" true (VBytes (Data s));
    Field "File" true (VString (File s));
    Field "FileEvent" true (VString (FileEvent s)) ].

(** The fields that are written. *)
Definition emitted (s : StreamFrame.t) : list field :=
  filter (fun fd => negb (omitempty fd && isEmptyValue (val fd))) (fields s).

Definition keys (fds : list field) : list string := List.map key fds.

Fixpoint join (sep : string) (parts : list string) : string :=
  match parts with
  | [] => EmptyString
  | [x] => x
  | x :: rest => (x ++ sep ++ join sep rest)%string
  end.

Section Encode.

(** How the encoder writes a number (decimal), a byte slice (a base64
    string) and a string (a quoted, escaped string). *)
Variable encInt : Z -> string.
Variable encBytes : list byte -> string.
Variable encString : string -> string.

Definition encode_value (v : value) : string :=
  match v with
  | VInt z => encInt z
  | VBytes b => encBytes b
  | VString s => encString s
  end.

Definition encode_field (fd : field) : string :=
  (String strconv.dquote (key fd ++ String strconv.dquote ":")
     ++ encode_value (val fd))%string.

(** The JSON object written for a frame. *)
Definition encode (s : StreamFrame.t) : string :=
  ("{" ++ join "," (List.map encode_field (emitted s)) ++ "}")%string.

End Encode.

End Wire.

(** ** StreamFramer *)

Module StreamFramer.

Import StreamFrame.

(** Modelled from the spec: the two errors [Send] can fail with, the
    fixed "framer destroyed" error and the sticky sink write error; the
    code that declares them is absent. *)
Inductive send_error : Type :=
| FramerDestroyed
| SinkError.

(** Modelled from the spec: the sink of the framer, whose code is not
    part of the sources at hand.  [written] lists the frames written
    through the sink encoder, oldest first; [broken] tells that writes
    fail (the other end is gone). *)
Record sink : Type := Sink {
  written : list StreamFrame.t;
  broken : bool
}.

(** Modelled from the spec: the state of a StreamFramer on which [Run]
    has been called (its implementation is not part of the sources at
    hand): the frame size threshold [F], the pending frame, whether the
    batch timer is armed, the sticky error slot, whether [Destroy] was
    called, and the sink. *)
Record t : Type := Build {
  frameSize : Z;
  pending : option StreamFrame.t;
  batchTimer : bool;
  err : option send_error;
  destroyed : bool;
  out : sink
}.

(** Modelled from the spec: [NewStreamFramer] followed by [Run]. *)
Definition NewStreamFramer (F : Z) : t :=
  {| frameSize := F; pending := None; batchTimer := false; err := None;
     destroyed := false; out := Sink [] false |}.

(** Modelled from the spec: [Flush] (the implementation is absent).
    Does nothing without a pending frame; otherwise writes it to the
    sink, resets the pending frame and stops the batch timer.  A failed
    write is recorded in the error slot. *)
Definition Flush (s : t) : t :=
  match pending s with
  | None => s
  | Some fr =>
      if broken (out s) then
        {| frameSize := frameSize s; pending := pending s;
           batchTimer := false; err := Some SinkError;
           destroyed := destroyed s; out := out s |}
      else
        {| frameSize := frameSize s; pending := None;
           batchTimer := false; err := err s;
           destroyed := destroyed s;
           out := Sink (written (out s) ++ [fr]) false |}
  end.

(** Modelled from the spec: a pending frame is keyed by its (file,
    event) pair. *)
Definition same_key (fr : StreamFrame.t) (file event : string) : bool :=
  String.eqb (File fr) file && String.eqb (FileEvent fr) event.

(** Modelled from the spec: replace the pending frame and set the batch
    timer. *)
Definition set_pending (p : option StreamFrame.t) (timer : bool) (s : t) : t :=
  {| frameSize := frameSize s; pending := p; batchTimer := timer;
     err := err s; destroyed := destroyed s; out := out s |}.

(** Modelled from the spec: [Send(file, event, data, offset)] (the
    implementation is absent), following the four steps of the batching
    algorithm: flush a pending frame of another (file, event); create
    the pending frame or append to it, leaving its offset alone; flush
    when the accumulated data has reached [F] bytes.  After [Destroy]
    and after a sink error the call fails. *)
Definition Send (s : t) (file event : string) (data : list byte)
    (offset : Z) : t * option send_error :=
  if destroyed s then (s, Some FramerDestroyed)
  else
    match err s with
    | Some e => (s, Some e)
    | None =>
        let s1 :=
          match pending s with
          | Some fr => if same_key fr file event then s else Flush s
          | None => s
          end in
        match err s1 with
        | Some e => (s1, Some e)
        | None =>
            let s2 :=
              match pending s1 with
              | None =>
                  set_pending
                    (Some {| Offset := offset; Data := data;
                             File := file; FileEvent := event |})
                    true s1
              | Some fr =>
                  set_pending
                    (Some {| Offset := Offset fr; Data := Data fr ++ data;
                             File := File fr; FileEvent := FileEvent fr |})
                    true s1
              end in
            let s3 :=
              match pending s2 with
              | Some fr =>
                  if frameSize s2 <=? len (Data fr) then Flush s2 else s2
              | None => s2
              end in
            (s3, err s3)
        end
    end.

(** Modelled from the spec: the data the pending frame holds once [data]
    has been added to it by steps 1 to 3 of the batching algorithm. *)
Definition accumulated (s : t) (file event : string) (data : list byte)
    : list byte :=
  match pending s with
  | Some fr => if same_key fr file event then Data fr ++ data else data
  | None => data
  end.

(** Modelled from the spec: the pending frame that step 1 flushes, if
    there is one and its (file, event) differs. *)
Definition displaced (s : t) (file event : string) : list StreamFrame.t :=
  match pending s with
  | Some fr => if same_key fr file event then [] else [fr]
  | None => []
  end.

(** Modelled from the spec: the offset of the frame [data] is added to;
    it is never updated after the frame is created. *)
Definition pending_offset (s : t) (file event : string) (offset : Z) : Z :=
  match pending s with
  | Some fr => if same_key fr file event then Offset fr else offset
  | None => offset
  end.

End StreamFramer.

(** ** What [Read] keeps true of a reader *)

Module ReaderState.

Import StreamFrame FrameReader.

(** The marker cursor lies within the marker buffer; the frame cursor lies
    within the data of the current frame; without a current frame the
    frame cursor is zero and there is no marker. *)
Definition bounded (f : FrameReader.t) : Prop :=
  0 <= fileEventOffset f <= len (fileEvent f)
  /\ match frame f with
     | None => frameOffset f = 0 /\ fileEvent f = []
     | Some fr => 0 <= frameOffset f <= len (Data fr)
     end.

(** No [cancel] is ever seen during the first [n] iterations and the one
    after them. *)
Definition never_cancelled (cancelled : nat -> bool) (n : nat) : Prop :=
  forall i, (i <= n)%nat -> cancelled i = false.

End ReaderState.

(** ** The [fs] command *)

Module FSCommand.

(** [api.AllocationListStub], with the two fields the command reads. *)
Record AllocationListStub : Type := Stub {
  ID : string;
  ClientStatus : string
}.

(** The errors [getRandomJobAlloc] returns: its own, about the job, and
    the one of the API call, which it passes on. *)
Inductive cmd_error : Type :=
| NoAllocations (jobID : string)
| ApiError (msg : string).

(** [s[i]]; panics unless [0 <= i < len(s)]. *)
Definition index {A : Type} (s : list A) (i : Z) : option A :=
  if (0 <=? i) && (i <? len s) then nth_error s (Z.to_nat i) else None.

Definition running (v : AllocationListStub) : bool :=
  String.eqb (ClientStatus v) "running".

Section Random.

(** [r.Intn(n)] on the generator seeded from the clock, for [n > 0]. *)
Variable Intn : Z -> Z.

(** [func getRandomJobAlloc(client, jobID) (string, error)], from the
    point where [client.Jobs().Allocations(jobID, nil)] has returned
    [allocs] and [err]; the allocations are non-nil pointers.  [Intn]
    panics when its argument is not positive. *)
Definition getRandomJobAlloc (allocs : list AllocationListStub)
    (err : option cmd_error) (jobID : string)
    : outcome (string * option cmd_error) :=
  if len allocs =? 0 then Ret (EmptyString, Some (NoAllocations jobID))
  else
    let runningAllocs := filter running allocs in
    let runningAllocs :=
      if len runningAllocs <? 1 then allocs else runningAllocs in
    if len runningAllocs <=? 0 then Panic
    else
      match index runningAllocs (Intn (len runningAllocs)) with
      | Some a => Ret (ID a, err)
      | None => Panic
      end.

End Random.


End FSCommand.

(** ** Flattening a value into a map of strings *)

Module diff.

(** A [map[string]string]: at most one entry per key. *)
Definition smap : Type := list (string * string).

(** [m[k]], with [None] for a missing key. *)
Definition get (k : string) (m : smap) : option string :=
  match find (fun kv => String.eqb (fst kv) k) m with
  | Some kv => Some (snd kv)
  | None => None
  end.

(** [m[k] = v] *)
Definition set (k v : string) (m : smap) : smap :=
  (k, v) :: filter (fun kv => negb (String.eqb (fst kv) k)) m.

(** The body of a loop over [l] that threads the output map and stops at
    the first panic; [i] counts the iterations. *)
Fixpoint each_from {A : Type} (f : nat -> A -> smap -> option smap)
    (i : nat) (l : list A) (output : smap) : option smap :=
  match l with
  | [] => Some output
  | x :: l' =>
      match f i x output with
      | Some o => each_from f (S i) l' o
      | None => None
      end
  end.

(** [%v] of a signed and of an unsigned integer, [%d] of an index. *)
Definition fmtInt (z : Z) : string :=
  DecimalString.NilZero.string_of_int (Z.to_int z).

Definition fmtUint (n : N) : string :=
  DecimalString.NilZero.string_of_uint (N.to_uint n).

Definition fmtIndex (i : nat) : string :=
  DecimalString.NilZero.string_of_uint (Nat.to_uint i).

Section Values.

(** Floating point and complex numbers, and how [%v] prints them. *)
Variables float complex : Type.
Variable fmtFloat : float -> string.
Variable fmtComplex : complex -> string.

#[local] Set Warnings "-register-all".

(** A [reflect.Value] by kind, for values that do not reach themselves
    through pointers, interfaces, maps or slices: a value is a finite
    tree.  (On a value with such a cycle the recursion of [flatten] has no
    end; those values are outside this type.)  [Invalid] is the zero
    Value, which is what
    [Elem] returns for a nil pointer or a nil interface; [Map] lists the
    keys in the order [MapKeys] returns them, each with the value
    [MapIndex] gives for it; [Slice None] is a nil slice; [Other] stands
    for the kinds [Chan], [Func] and [UnsafePointer]. *)
Inductive value : Type :=
| Invalid
| Bool (b : bool)
| Int (z : Z)
| Uint (n : N)
| Float (x : float)
| Complex (x : complex)
| Str (s : string)
| Ptr (e : value)
| Iface (e : value)
| Map (entries : list (value * value))
| Struct (fields : list (string * value))
| Array (elems : list value)
| Slice (elems : option (list value))
| Other.

(** [v.IsValid()] *)
Definition IsValid (v : value) : bool :=
  match v with
  | Invalid => false
  | _ => true
  end.

(** A map key as the loop uses it: the element of an interface key. *)
Definition key_elem (k : value) : value :=
  match k with
  | Iface e => e
  | _ => k
  end.

(** A struct field as the loop uses it: the element of a non-nil
    interface. *)
Definition field_elem (val : value) : value :=
  match val with
  | Iface e => if IsValid e then e else val
  | _ => val
  end.

(** The prefix for a struct field. *)
Definition field_prefix (prefix name : string) : string :=
  if String.eqb prefix EmptyString then name
  else (prefix ++ "." ++ name)%string.

(** [func flatten(prefix string, v reflect.Value, output map[string]string)];
    [None] when it panics. *)
Fixpoint flatten (prefix : string) (v : value) (output : smap) {struct v}
    : option smap :=
  match v with
  | Bool b => Some (set prefix (if b then "true" else "false")%string output)
  | Int z => Some (set prefix (fmtInt z) output)
  | Uint n => Some (set prefix (fmtUint n) output)
  | Float x => Some (set prefix (fmtFloat x) output)
  | Complex x => Some (set prefix (fmtComplex x) output)
  | Str s => Some (set prefix s output)
  | Invalid => Some (set prefix "nil" output)
  | Ptr e =>
      flatten prefix e
        (if IsValid e then output else set prefix "nil" output)
  | Map entries =>
      each_from
        (fun _ kx output =>
           match key_elem (fst kx) with
           | Str s =>
               flatten (prefix ++ "." ++ s)%string (snd kx) output
           | _ => None
           end)
        0%nat entries output
  | Struct fields =>
      each_from
        (fun _ nv output =>
           flatten (field_prefix prefix (fst nv)) (field_elem (snd nv))
             output)
        0%nat fields output
  | Iface e =>
      match e with
      | Invalid => Some (set prefix "nil" output)
      | _ => flatten prefix e output
      end
  | Array elems =>
      each_from
        (fun i x output =>
           flatten (prefix ++ "[" ++ fmtIndex i ++ "]")%string x output)
        0%nat elems output
  | Slice None => Some (set prefix "nil" output)
  | Slice (Some elems) =>
      each_from
        (fun i x output =>
           flatten (prefix ++ "[" ++ fmtIndex i ++ "]")%string x output)
        0%nat elems output
  | Other => None
  end.

(** The string [flatten] stores for a value of a primitive kind and for
    a nil slice; [None] for the other values. *)
Definition leaf (v : value) : option string :=
  match v with
  | Bool b => Some (if b then "true" else "false")%string
  | Int z => Some (fmtInt z)
  | Uint n => Some (fmtUint n)
  | Float x => Some (fmtFloat x)
  | Complex x => Some (fmtComplex x)
  | Str s => Some s
  | Slice None => Some "nil"%string
  | _ => None
  end.

(** [func Flatten(obj interface{}) map[string]string] on the Value of
    [obj]: the outer [None] is a panic, the inner one the nil map. *)
Definition Flatten (obj : value) : option (option smap) :=
  if IsValid obj then option_map Some (flatten EmptyString obj [])
  else Some None.

(** The values [flatten] has a case for all the way down: no kind without
    a case, and no map key that is not a string once taken out of its
    interface. *)
Fixpoint supported (v : value) : bool :=
  match v with
  | Ptr e | Iface e => supported e
  | Map entries =>
      forallb
        (fun kx =>
           match key_elem (fst kx) with
           | Str _ => supported (snd kx)
           | _ => false
           end) entries
  | Struct fields => forallb (fun nv => supported (snd nv)) fields
  | Array elems | Slice (Some elems) => forallb supported elems
  | Other => false
  | _ => true
  end.

End Values.

Arguments Invalid {float complex}.
Arguments Bool {float complex} b.
Arguments Int {float complex} z.
Arguments Uint {float complex} n.
Arguments Float {float complex} x.
Arguments Complex {float complex} x.
Arguments Str {float complex} s.
Arguments Ptr {float complex} e.
Arguments Iface {float complex} e.
Arguments Map {float complex} entries.
Arguments Struct {float complex} fields.
Arguments Array {float complex} elems.
Arguments Slice {float complex} elems.
Arguments Other {float complex}.
Arguments IsValid {float complex} v.
Arguments key_elem {float complex} k.
Arguments field_elem {float complex} val.
Arguments supported {float complex} v.

(** Starting from [o1] and from [o2], the same writes have led to [r1]
    and to [r2]: each key either holds in both what was written to it, or
    holds in each what it held at the start. *)
Definition same_writes (o1 o2 r1 r2 : smap) : Prop :=
  forall k,
    (get k r1 = get k o1 /\ get k r2 = get k o2)
    \/ (exists x, get k r1 = Some x /\ get k r2 = Some x).

End diff.

(** * Properties *)

(** ** Helper facts *)

Lemma len_nil_iff {A : Type} (s : list A) : len s = 0 <-> s = [].
Proof.
  unfold len. destruct s as [|x s]; simpl; split; intro H;
    try reflexivity; try discriminate; lia.
Qed.

Lemma len_nonneg {A : Type} (s : list A) : 0 <= len s.
Proof. unfold len. lia. Qed.

Lemma len_app {A : Type} (s1 s2 : list A) : len (s1 ++ s2) = len s1 + len s2.
Proof. unfold len. rewrite List.length_app. lia. Qed.

Lemma string_eqb_empty (s : string) :
  String.eqb s EmptyString = true <-> s = EmptyString.
Proof. apply String.eqb_eq. Qed.

Lemma to_int_id (x : Z) : in_int64 x -> to_int x = x.
Proof.
  unfold in_int64, to_int, wrap64. intros H.
  rewrite Z.mod_small; lia.
Qed.

(** ** Heartbeats *)

Section Heartbeat.

Import StreamFrame.

Lemma IsHeartbeat_true_iff (s : StreamFrame.t) :
  IsHeartbeat s = true <->
  Data s = [] /\ File s = EmptyString /\ FileEvent s = EmptyString
  /\ Offset s = 0.
Proof.
  unfold IsHeartbeat.
  rewrite !andb_true_iff, !Z.eqb_eq, !string_eqb_empty, len_nil_iff.
  tauto.
Qed.

(** C2. [IsHeartbeat] returns true exactly when the data, the file, the
    event are empty and the offset is zero; it returns false exactly
    when one of the four fields is not at its zero value. *)
Theorem IsHeartbeat_iff_zero (s : StreamFrame.t) :
  (IsHeartbeat s = true <->
     Data s = [] /\ File s = EmptyString /\ FileEvent s = EmptyString
     /\ Offset s = 0)
  /\ (IsHeartbeat s = false <->
        Data s <> [] \/ File s <> EmptyString \/ FileEvent s <> EmptyString
        \/ Offset s <> 0).
Proof.
  split; [apply IsHeartbeat_true_iff|].
  rewrite <- not_true_iff_false, IsHeartbeat_true_iff.
  destruct (Data s) as [|b d].
  - destruct (string_dec (File s) EmptyString) as [Hf|Hf];
      destruct (string_dec (FileEvent s) EmptyString) as [He|He];
      destruct (Z.eq_dec (Offset s) 0) as [Ho|Ho]; tauto.
  - split; [intros _; left; discriminate|].
    intros _ [Hd _]. discriminate.
Qed.

Lemma IsHeartbeat_zero : IsHeartbeat zero = true.
Proof. reflexivity. Qed.

End Heartbeat.

(** ** The decoder loop *)

Section StreamLoop.

Import StreamFrame AllocFS.

Lemma Stream_loop_queue (cancelled : nat -> bool) (body : list StreamFrame.t) :
  forall (i : nat) (ch : Chan.t StreamFrame.t),
    Chan.closed ch = false ->
    exists c,
      Stream_loop cancelled i body ch = Ret c
      /\ Chan.queue c = Chan.queue ch ++ filter live (decoded cancelled i body).
Proof.
  induction body as [|frame rest IH]; intros i ch Hopen; simpl.
  - destruct (cancelled i).
    + exists ch. now rewrite app_nil_r.
    + unfold Chan.close. rewrite Hopen. eexists. split; [reflexivity|].
      simpl. now rewrite app_nil_r.
  - destruct (cancelled i).
    + exists ch. now rewrite app_nil_r.
    + simpl. unfold live at 1. destruct (IsHeartbeat frame) eqn:Hb; simpl.
      * apply IH, Hopen.
      * unfold Chan.send. rewrite Hopen.
        destruct (IH (S i) (Chan.Build (Chan.queue ch ++ [frame]) false) eq_refl)
          as [c [Hc Hq]].
        exists c. split; [exact Hc|].
        rewrite Hq. simpl. now rewrite <- app_assoc.
Qed.

(** Heartbeats between data frames are dropped; the end of the body closes
    the channel. *)
Example Stream_drops_heartbeats :
  Stream (fun _ => false)
    [StreamFrame.zero; Sample.hel; StreamFrame.zero; Sample.lo]
  = Ret (Chan.Build [Sample.hel; Sample.lo] true).
Proof. reflexivity. Qed.

(** A cancel seen at the third iteration ends the loop with the channel
    left open. *)
Example Stream_cancelled :
  Stream (fun i => Nat.leb 2 i) [Sample.hel; StreamFrame.zero; Sample.lo]
  = Ret (Chan.Build [Sample.hel] false).
Proof. reflexivity. Qed.

End StreamLoop.

(** ** Close *)

Section CloseProps.

Import FrameReader.

Lemma Close_closed (f : FrameReader.t) (cancelCh : signal) :
  closed f = true -> Close f cancelCh = Ret (f, cancelCh, None).
Proof. intros H. unfold Close. now rewrite H. Qed.

Lemma Close_times_closed (n : nat) (f : FrameReader.t) (cancelCh : signal) :
  closed f = true -> Close_times n f cancelCh = Ret (f, cancelCh, None).
Proof.
  intros H. induction n as [|n IH]; simpl; [reflexivity|].
  now rewrite (Close_closed f cancelCh H).
Qed.

(** C6. [Close] is idempotent.  On a reader not yet closed whose cancel
    channel is open, the first call closes the channel, marks the reader
    closed and returns nil; from then on every call returns nil and leaves
    both the reader and the channel as they are, so the channel is closed
    once and no call panics. *)
Theorem Close_idempotent (f : FrameReader.t) :
  closed f = false ->
  let f' := set_closed true f in
  Close f SigOpen = Ret (f', SigClosed, None)
  /\ (forall cancelCh, Close f' cancelCh = Ret (f', cancelCh, None))
  /\ (forall n, Close_times n f' SigClosed = Ret (f', SigClosed, None))
  /\ (forall n, Close_times (S n) f SigOpen = Ret (f', SigClosed, None)).
Proof.
  intros Hf f'.
  assert (H1 : Close f SigOpen = Ret (f', SigClosed, None)).
  { unfold Close. now rewrite Hf. }
  assert (Hc : closed f' = true) by reflexivity.
  split; [exact H1|]. split; [|split].
  - intros c. now apply Close_closed.
  - intros n. now apply Close_times_closed.
  - intros n. simpl. rewrite H1. now apply Close_times_closed.
Qed.

Lemma Close_idempotent_witness :
  closed NewFrameReader = false
  /\ Close_times 3 NewFrameReader SigOpen
     = Ret (set_closed true NewFrameReader, SigClosed, None).
Proof.
  split; [reflexivity|].
  apply (Close_idempotent NewFrameReader eq_refl).
Defined.

End CloseProps.

(** ** Read *)

Section ReadProps.

Import StreamFrame FrameReader.

Variable Quote : string -> string.

(** C5. With no current frame and the frame channel closed and empty, so
    that the receive fails, [Read] returns no bytes and [io.EOF], and
    neither the reader nor the channel changes. *)
Theorem Read_closed_channel (f : FrameReader.t)
    (frames : Chan.t StreamFrame.t) (plen : nat) :
  frame f = None ->
  Chan.recv frames = Chan.Drained ->
  Read Quote f frames plen = Ret (f, frames, [], Some EOF).
Proof.
  intros Hf Hr. unfold Read. now rewrite Hf, Hr.
Qed.

Lemma recv_Drained_iff (A : Type) (c : Chan.t A) :
  Chan.recv c = Chan.Drained <-> Chan.queue c = [] /\ Chan.closed c = true.
Proof.
  unfold Chan.recv. destruct (Chan.queue c); [|split; [discriminate|intros [H _]; discriminate]].
  destruct (Chan.closed c); split; try discriminate; auto.
  intros [_ H]; discriminate.
Qed.

Lemma event_marker_nonempty (ev : string) : 0 < len (event_marker Quote ev).
Proof.
  unfold event_marker, len. cbn [list_byte_of_string List.map list_ascii_of_string].
  cbn [List.length]. lia.
Qed.

(** C4. When [Read] takes from the channel a frame with a non-empty event,
    the marker buffer it sets up is the text made of a newline, [nomad: ],
    the event as [%q] prints it, and a newline; the bytes returned are the
    start of that buffer. *)
Theorem Read_event_marker (f : FrameReader.t)
    (frames frames' : Chan.t StreamFrame.t) (fr : StreamFrame.t) (plen : nat) :
  frame f = None ->
  fileEvent f = [] ->
  Chan.recv frames = Chan.Received fr frames' ->
  FileEvent fr <> EmptyString ->
  exists f',
    Read Quote f frames plen
      = Ret (f', frames', firstn plen (fileEvent f'), None)
    /\ fileEvent f'
       = list_byte_of_string
           (String newline
              ("nomad: " ++ Quote (FileEvent fr) ++ String newline EmptyString))
    /\ fileEventOffset f' = len (firstn plen (fileEvent f'))
    /\ frame f' = Some fr.
Proof.
  intros Hf He Hr Hev.
  unfold Read. rewrite Hf, Hr. unfold Read_frame. cbn [fileEvent set_byteOffset set_frame].
  rewrite He.
  assert (Hne : String.eqb (FileEvent fr) EmptyString = false).
  { apply not_true_iff_false. now rewrite string_eqb_empty. }
  rewrite Hne. cbn [negb andb len List.length Z.of_nat Z.eqb].
  cbn [fileEvent fileEventOffset set_fileEvent set_fileEventOffset].
  assert (Hl : (len (event_marker Quote (FileEvent fr)) =? 0) = false).
  { apply Z.eqb_neq. pose proof (event_marker_nonempty (FileEvent fr)). lia. }
  rewrite Hl. cbn [negb andb].
  unfold slice_from. cbn [Z.leb Z.compare andb].
  assert (Hle : (0 <=? len (event_marker Quote (FileEvent fr))) = true).
  { apply Z.leb_le, len_nonneg. }
  rewrite Hle. cbn [Z.to_nat skipn copy].
  match goal with |- exists f', Ret (?g, _, _, _) = _ /\ _ => exists g end.
  unfold copy. cbn. repeat split; reflexivity.
Qed.

(** C10. Once the marker of an event-only frame has been handed out in
    full, the next [Read] returns no bytes and a nil error, not [io.EOF];
    it clears the current frame and the marker and leaves the channel
    alone. *)
Theorem Read_after_marker_drained (f : FrameReader.t) (fr : StreamFrame.t)
    (frames : Chan.t StreamFrame.t) (plen : nat) :
  frame f = Some fr ->
  FileEvent fr <> EmptyString ->
  Data fr = [] ->
  fileEvent f = event_marker Quote (FileEvent fr) ->
  fileEventOffset f = len (fileEvent f) ->
  frameOffset f = 0 ->
  exists f',
    Read Quote f frames plen = Ret (f', frames, [], None)
    /\ frame f' = None
    /\ frameOffset f' = 0
    /\ fileEvent f' = []
    /\ fileEventOffset f' = 0
    /\ byteOffset f' = byteOffset f
    /\ closed f' = closed f.
Proof.
  intros Hf Hev Hd He Ho Hfo.
  unfold Read. rewrite Hf. unfold Read_frame.
  assert (Hl : (len (fileEvent f) =? 0) = false).
  { apply Z.eqb_neq. rewrite He.
    pose proof (event_marker_nonempty (FileEvent fr)). lia. }
  rewrite Hl, andb_false_r.
  rewrite Ho, Z.eqb_refl, Hl. cbn [negb andb].
  cbn [frameOffset set_fileEventOffset set_fileEvent].
  rewrite Hfo, Hd. unfold slice_from. cbn.
  destruct plen; cbn; eexists; (split; [reflexivity|]); cbn; repeat split.
Qed.

(** *** The offset follows the frame taken last *)

Lemma Read_frame_keeps (f f1 : FrameReader.t) (fr : StreamFrame.t)
    (ch ch1 : Chan.t StreamFrame.t) (plen : nat) (out : list byte)
    (e : option error) :
  Read_frame Quote f fr ch plen = Ret (f1, ch1, out, e) ->
  ch1 = ch /\ byteOffset f1 = byteOffset f /\ closed f1 = closed f /\ e = None.
Proof.
  unfold Read_frame.
  repeat match goal with
         | |- context [if ?c then _ else _] => destruct c
         | |- context [match slice_from ?a ?b with _ => _ end] =>
             destruct (slice_from a b)
         end;
    intros H; inversion H; subst; cbn; auto.
Qed.

Lemma Read_takes_at_most_one (f f1 : FrameReader.t)
    (ch ch1 : Chan.t StreamFrame.t) (plen : nat) (out : list byte) :
  Read Quote f ch plen = Ret (f1, ch1, out, None) ->
  (ch1 = ch /\ byteOffset f1 = byteOffset f)
  \/ (exists fr, Chan.queue ch = fr :: Chan.queue ch1
                 /\ byteOffset f1 = to_int (StreamFrame.Offset fr)).
Proof.
  unfold Read. destruct (frame f) as [fr|].
  - intros H. apply Read_frame_keeps in H. left. tauto.
  - unfold Chan.recv. destruct (Chan.queue ch) as [|fr q] eqn:Hq.
    + destruct (Chan.closed ch); discriminate.
    + intros H. apply Read_frame_keeps in H. right. exists fr.
      destruct H as [-> [Hb _]]. split; [reflexivity|exact Hb].
Qed.

Lemma last_cons_nonempty (A : Type) (x d : A) (l : list A) :
  l <> [] -> last (x :: l) d = last l d.
Proof. destruct l; [congruence|reflexivity]. Qed.

Lemma reads_offset (bufs : list nat) :
  forall (f f' : FrameReader.t) (ch ch' : Chan.t StreamFrame.t),
    reads Quote bufs f ch = (f', ch') ->
    exists taken,
      Chan.queue ch = taken ++ Chan.queue ch'
      /\ (taken = [] -> byteOffset f' = byteOffset f)
      /\ (taken <> [] ->
          byteOffset f'
          = to_int (StreamFrame.Offset (last taken StreamFrame.zero))).
Proof.
  induction bufs as [|plen bufs IH]; intros f f' ch ch' H; simpl in H.
  - inversion H; subst. exists []. repeat split; congruence.
  - destruct (Read Quote f ch plen) as [[[[f1 ch1] out] [[]|]]| |] eqn:HR;
      try (inversion H; subst; exists []; repeat split; congruence).
    destruct (IH _ _ _ _ H) as [taken [Hq [Hn Hl]]].
    destruct (Read_takes_at_most_one _ _ _ _ _ _ HR)
      as [[-> Hb]|[fr [Hq1 Hb]]].
    + exists taken. rewrite <- Hb. auto.
    + exists (fr :: taken). split; [rewrite Hq1, Hq; reflexivity|].
      split; [discriminate|]. intros _.
      destruct taken as [|fr' taken'].
      * simpl. rewrite Hn; auto.
      * rewrite last_cons_nonempty by discriminate. apply Hl. discriminate.
Qed.

(** C7, as amended.  After any sequence of [Read] calls on a new reader
    that took at least one frame from the channel, [Offset] returns the
    offset of the frame taken last, converted to [int] (the offset itself
    when it is within the range of [int64]): each frame taken replaces the
    offset remembered from the one before. *)
Theorem Offset_is_last_taken (bufs : list nat) (frames : Chan.t StreamFrame.t) :
  exists taken,
    Chan.queue frames
      = taken ++ Chan.queue (snd (reads Quote bufs NewFrameReader frames))
    /\ (taken <> [] ->
        let fr := last taken StreamFrame.zero in
        Offset (fst (reads Quote bufs NewFrameReader frames))
          = to_int (StreamFrame.Offset fr)
        /\ (in_int64 (StreamFrame.Offset fr) ->
            Offset (fst (reads Quote bufs NewFrameReader frames))
              = StreamFrame.Offset fr)).
Proof.
  destruct (reads Quote bufs NewFrameReader frames) as [f' ch'] eqn:H.
  destruct (reads_offset _ _ _ _ _ H) as [taken [Hq [_ Hl]]].
  exists taken. split; [exact Hq|].
  intros Hne fr. cbn [fst]. unfold Offset. rewrite (Hl Hne).
  split; [reflexivity|]. intros Hr. now apply to_int_id.
Qed.

(** *** The marker buffer is empty whenever no frame is held *)

Lemma Read_frame_idle (f f1 : FrameReader.t) (fr : StreamFrame.t)
    (ch ch1 : Chan.t StreamFrame.t) (plen : nat) (out : list byte)
    (e : option error) :
  frame f = Some fr ->
  Read_frame Quote f fr ch plen = Ret (f1, ch1, out, e) ->
  frame f1 = None ->
  fileEvent f1 = [].
Proof.
  intros Hf. unfold Read_frame.
  set (f' := if negb (String.eqb (FileEvent fr) EmptyString)
                && (len (fileEvent f) =? 0)
             then set_fileEventOffset 0
                    (set_fileEvent (event_marker Quote (FileEvent fr)) f)
             else f).
  assert (Hf' : frame f' = Some fr).
  { unfold f'. destruct (_ && _); cbn; exact Hf. }
  destruct (negb (len (fileEvent f') =? 0)
            && negb (len (fileEvent f') =? fileEventOffset f')) eqn:Hc.
  - destruct (slice_from (fileEvent f') (fileEventOffset f')); [|discriminate].
    intros H. inversion H; subst. cbn. congruence.
  - destruct (Z.eqb_spec (len (fileEvent f')) (fileEventOffset f')) as [E|E].
    + destruct (slice_from _ _); [|discriminate].
      intros H _. inversion H; subst.
      match goal with
      | |- fileEvent (if ?c then _ else _) = _ => destruct c
      end; reflexivity.
    + destruct (Z.eqb_spec (len (fileEvent f')) 0) as [E0|E0];
        [|discriminate].
      apply len_nil_iff in E0.
      destruct (slice_from _ _); [|discriminate].
      intros H _. inversion H; subst.
      match goal with
      | |- fileEvent (if ?c then _ else _) = _ => destruct c
      end; exact E0.
Qed.

Lemma Read_idle_marker_empty (f f1 : FrameReader.t)
    (ch ch1 : Chan.t StreamFrame.t) (plen : nat) (out : list byte)
    (e : option error) :
  (frame f = None -> fileEvent f = []) ->
  Read Quote f ch plen = Ret (f1, ch1, out, e) ->
  frame f1 = None -> fileEvent f1 = [].
Proof.
  intros Hinv. unfold Read. destruct (frame f) as [fr|] eqn:Hf.
  - intros H H1. exact (Read_frame_idle f f1 fr ch ch1 plen out e Hf H H1).
  - destruct (Chan.recv ch) as [fr ch'| |]; [| |discriminate].
    + intros H H1.
      eapply Read_frame_idle; [|exact H|exact H1]. reflexivity.
    + intros H _. inversion H; subst. auto.
Qed.

(** On a reader obtained from a new one by [Read] calls, the marker buffer
    is empty whenever there is no current frame. *)
Lemma reads_idle_marker_empty (bufs : list nat) :
  forall (f : FrameReader.t) (ch : Chan.t StreamFrame.t),
    (frame f = None -> fileEvent f = []) ->
    frame (fst (reads Quote bufs f ch)) = None ->
    fileEvent (fst (reads Quote bufs f ch)) = [].
Proof.
  induction bufs as [|plen bufs IH]; intros f ch Hinv; cbn [reads].
  - exact Hinv.
  - destruct (Read Quote f ch plen) as [[[[f1 ch1] out] [[]|]]| |] eqn:HR;
      try exact Hinv.
    apply IH. eapply Read_idle_marker_empty; eassumption.
Qed.

(** *** Reading a stream to its end *)

Lemma firstn_then_skipn (A : Type) (p : nat) :
  forall l : list A, l = firstn p l ++ skipn (List.length (firstn p l)) l.
Proof.
  induction p as [|p IH]; intros [|x l]; simpl; try reflexivity.
  f_equal. apply IH.
Qed.

Lemma skipn_split (A : Type) (l : list A) (k p : nat) :
  skipn k l
  = firstn p (skipn k l)
      ++ skipn (k + List.length (firstn p (skipn k l))) l.
Proof.
  rewrite (Nat.add_comm k), <- skipn_skipn. apply firstn_then_skipn.
Qed.

Lemma slice_from_nat (A : Type) (l : list A) (k : nat) :
  (k <= List.length l)%nat -> slice_from l (Z.of_nat k) = Some (skipn k l).
Proof.
  intros H. unfold slice_from, len.
  replace (0 <=? Z.of_nat k) with true by (symmetry; apply Z.leb_le; lia).
  replace (Z.of_nat k <=? Z.of_nat (List.length l)) with true
    by (symmetry; apply Z.leb_le; lia).
  cbn [andb]. now rewrite Nat2Z.id.
Qed.

Lemma eqb_empty_false (s : string) :
  s <> EmptyString -> String.eqb s EmptyString = false.
Proof. intros H. apply not_true_iff_false. now rewrite string_eqb_empty. Qed.

(** A frame just taken that carries an event: setting up the marker is
    the first thing [Read] does. *)
Lemma Read_frame_init (fr : StreamFrame.t) (c : bool) (bo : Z)
    (ch : Chan.t StreamFrame.t) (plen : nat) :
  FileEvent fr <> EmptyString ->
  Read_frame Quote (repr Quote (InData fr 0) c bo) fr ch plen
  = Read_frame Quote (repr Quote (InMarker fr 0) c bo) fr ch plen.
Proof.
  intros Hev. unfold Read_frame. cbn [repr fileEvent].
  rewrite (eqb_empty_false _ Hev).
  pose proof (event_marker_nonempty (FileEvent fr)) as Hm.
  replace (len (event_marker Quote (FileEvent fr)) =? 0) with false
    by (symmetry; apply Z.eqb_neq; lia).
  reflexivity.
Qed.

(** Inside the marker: the next bytes of the marker are returned. *)
Lemma Read_frame_marker (fr : StreamFrame.t) (k : nat) (c : bool) (bo : Z)
    (ch : Chan.t StreamFrame.t) (plen : nat) :
  (k < List.length (event_marker Quote (FileEvent fr)))%nat ->
  let out := firstn plen (skipn k (event_marker Quote (FileEvent fr))) in
  Read_frame Quote (repr Quote (InMarker fr k) c bo) fr ch plen
  = Ret (repr Quote (InMarker fr (k + List.length out)) c bo, ch, out, None).
Proof.
  intros Hk out. unfold Read_frame. cbn [repr fileEvent fileEventOffset].
  replace (len (event_marker Quote (FileEvent fr)) =? 0) with false
    by (symmetry; apply Z.eqb_neq; unfold len; lia).
  rewrite andb_false_r.
  cbn [repr fileEvent fileEventOffset].
  replace (len (event_marker Quote (FileEvent fr)) =? Z.of_nat k) with false
    by (symmetry; apply Z.eqb_neq; unfold len; lia).
  cbn [negb andb].
  rewrite slice_from_nat by lia.
  unfold copy, set_fileEventOffset. cbn. fold out.
  unfold len. now rewrite Nat2Z.inj_add.
Qed.

(** At the end of the marker, with a buffer that takes all the data. *)
Lemma Read_frame_drained (fr : StreamFrame.t) (c : bool) (bo : Z)
    (ch : Chan.t StreamFrame.t) (plen : nat) :
  (List.length (Data fr) <= plen)%nat ->
  Read_frame Quote
    (repr Quote (InMarker fr (List.length (event_marker Quote (FileEvent fr)))) c bo)
    fr ch plen
  = Ret (repr Quote Idle c bo, ch, Data fr, None).
Proof.
  intros Hp. unfold Read_frame. cbn [repr fileEvent fileEventOffset].
  pose proof (event_marker_nonempty (FileEvent fr)) as Hm.
  replace (len (event_marker Quote (FileEvent fr)) =? 0) with false
    by (symmetry; apply Z.eqb_neq; lia).
  rewrite andb_false_r.
  cbn [repr fileEvent fileEventOffset]. fold (len (event_marker Quote (FileEvent fr))).
  rewrite Z.eqb_refl. cbn [negb andb].
  cbn [set_fileEvent set_fileEventOffset frameOffset].
  change 0 with (Z.of_nat 0). rewrite slice_from_nat by lia.
  cbn [skipn]. unfold copy. rewrite (firstn_all2 _ Hp).
  cbn [set_frameOffset frameOffset Z.of_nat Z.add].
  rewrite Z.eqb_refl. reflexivity.
Qed.

(** Inside the data of a frame without event. *)
Lemma Read_frame_data (fr : StreamFrame.t) (k : nat) (c : bool) (bo : Z)
    (ch : Chan.t StreamFrame.t) (plen : nat) :
  FileEvent fr = EmptyString ->
  (k <= List.length (Data fr))%nat ->
  let out := firstn plen (skipn k (Data fr)) in
  Read_frame Quote (repr Quote (InData fr k) c bo) fr ch plen
  = Ret (repr Quote
           (if (k + List.length out =? List.length (Data fr))%nat
            then Idle else InData fr (k + List.length out)) c bo,
         ch, out, None).
Proof.
  intros Hev Hk out. unfold Read_frame. rewrite Hev.
  cbn [String.eqb negb andb repr fileEvent fileEventOffset len List.length
       Z.of_nat Z.eqb set_fileEvent set_fileEventOffset frameOffset].
  rewrite slice_from_nat by exact Hk.
  unfold copy. fold out. cbn [set_frameOffset frameOffset].
  unfold len. rewrite <- Nat2Z.inj_add.
  destruct (Nat.eqb_spec (k + List.length out) (List.length (Data fr))) as [E|E].
  - replace (Z.of_nat (List.length (Data fr)) =? Z.of_nat (k + List.length out))
      with true by (symmetry; apply Z.eqb_eq; lia).
    reflexivity.
  - replace (Z.of_nat (List.length (Data fr)) =? Z.of_nat (k + List.length out))
      with false by (symmetry; apply Z.eqb_neq; lia).
    reflexivity.
Qed.

(** One call on a reader that holds a frame. *)
Lemma Read_frame_view (v : view) (fr : StreamFrame.t) (c : bool) (bo : Z)
    (ch : Chan.t StreamFrame.t) (plen : nat) :
  current v = [fr] ->
  wf_view Quote v ->
  (1 <= plen)%nat ->
  fits plen fr ->
  exists v' out,
    Read_frame Quote (repr Quote v c bo) fr ch plen
      = Ret (repr Quote v' c bo, ch, out, None)
    /\ wf_view Quote v'
    /\ pending Quote v = out ++ pending Quote v'
    /\ (weight Quote v' < weight Quote v)%nat
    /\ incl (current v') [fr].
Proof.
  intros Hcur Hwf Hp Hfit.
  destruct v as [|fr0 k|fr0 k]; cbn in Hcur; inversion Hcur; subst fr0.
  - (* in the marker *)
    destruct Hwf as [Hev Hk].
    destruct (Nat.eq_dec k (List.length (event_marker Quote (FileEvent fr))))
      as [E|E].
    + subst k. destruct Hfit as [Hf|Hf]; [contradiction|].
      exists Idle, (Data fr).
      split; [now apply Read_frame_drained|].
      split; [exact I|]. cbn [pending weight current].
      rewrite skipn_all, app_nil_r. cbn [app].
      repeat split; [lia|apply incl_nil_l].
    + pose proof (Read_frame_marker fr k c bo ch plen ltac:(lia)) as HR.
      cbv zeta in HR.
      set (out := firstn plen (skipn k (event_marker Quote (FileEvent fr)))) in *.
      assert (Hn : (1 <= List.length out
                    /\ k + List.length out
                       <= List.length (event_marker Quote (FileEvent fr)))%nat).
      { unfold out. rewrite length_firstn, length_skipn. lia. }
      exists (InMarker fr (k + List.length out)), out.
      split; [exact HR|]. split; [split; [exact Hev|lia]|].
      cbn [pending weight current]. split; [|split].
      * rewrite app_assoc. f_equal. apply skipn_split.
      * rewrite !List.length_app, !length_skipn. lia.
      * apply incl_refl.
  - (* in the data *)
    destruct Hwf as [Hev Hk].
    pose proof (Read_frame_data fr k c bo ch plen Hev Hk) as HR.
    cbv zeta in HR.
    set (out := firstn plen (skipn k (Data fr))) in *.
    assert (Hn : List.length out = Nat.min plen (List.length (Data fr) - k)).
    { unfold out. now rewrite length_firstn, length_skipn. }
    assert (Hs : skipn k (Data fr)
                 = out ++ skipn (k + List.length out) (Data fr))
      by apply skipn_split.
    eexists _, out. split; [exact HR|].
    destruct (Nat.eqb_spec (k + List.length out) (List.length (Data fr)))
      as [E|E]; cbn [wf_view pending weight current].
    + split; [exact I|]. rewrite Hs at 1. rewrite E, skipn_all.
      repeat split; [lia|apply incl_nil_l].
    + split; [split; [exact Hev|lia]|].
      split; [exact Hs|]. split; [|apply incl_refl].
      rewrite !length_skipn. lia.
Qed.

Lemma frame_bytes_event (fr : StreamFrame.t) :
  FileEvent fr <> EmptyString ->
  frame_bytes Quote fr = event_marker Quote (FileEvent fr) ++ Data fr.
Proof. intros H. unfold frame_bytes. now rewrite (eqb_empty_false _ H). Qed.

Lemma frame_bytes_data (fr : StreamFrame.t) :
  FileEvent fr = EmptyString -> frame_bytes Quote fr = Data fr.
Proof. intros H. unfold frame_bytes. now rewrite H. Qed.

(** One call on a reader whose frame channel has been closed: it is at the
    end of the stream, or it returns the next bytes of the stream and gets
    closer to the end. *)
Lemma Read_view (v : view) (c : bool) (bo : Z)
    (ch : Chan.t StreamFrame.t) (plen : nat) :
  wf_view Quote v ->
  (1 <= plen)%nat ->
  Forall (fits plen) (current v ++ Chan.queue ch) ->
  Chan.closed ch = true ->
  (v = Idle /\ Chan.queue ch = []
   /\ Read Quote (repr Quote v c bo) ch plen
      = Ret (repr Quote v c bo, ch, [], Some EOF))
  \/ exists v' bo' ch' out,
       Read Quote (repr Quote v c bo) ch plen
         = Ret (repr Quote v' c bo', ch', out, None)
       /\ wf_view Quote v'
       /\ Chan.closed ch' = true
       /\ pending Quote v ++ stream_bytes Quote (Chan.queue ch)
          = out ++ pending Quote v' ++ stream_bytes Quote (Chan.queue ch')
       /\ (weight Quote v' + queue_weight Quote (Chan.queue ch')
           < weight Quote v + queue_weight Quote (Chan.queue ch))%nat
       /\ incl (current v' ++ Chan.queue ch') (current v ++ Chan.queue ch).
Proof.
  intros Hwf Hp Hfit Hcl.
  destruct v as [|fr k|fr k].
  - (* no current frame *)
    destruct ch as [q cl]. cbn in Hcl. subst cl.
    destruct q as [|fr q].
    + left. repeat split.
    + right. cbn [current app Chan.queue] in *.
      assert (Hfr : fits plen fr) by (inversion Hfit; assumption).
      unfold Read. cbn [repr frame Chan.recv Chan.queue Chan.closed].
      set (bo' := to_int (StreamFrame.Offset fr)).
      set (ch' := Chan.Build q true).
      assert (Hv0 : exists v0,
                 current v0 = [fr] /\ wf_view Quote v0
                 /\ pending Quote v0 = frame_bytes Quote fr
                 /\ Read_frame Quote (repr Quote (InData fr 0) c bo') fr ch' plen
                    = Read_frame Quote (repr Quote v0 c bo') fr ch' plen).
      { destruct (string_dec (FileEvent fr) EmptyString) as [Hev|Hev].
        - exists (InData fr 0). repeat split; cbn; try lia; auto.
          now rewrite frame_bytes_data.
        - exists (InMarker fr 0). repeat split; cbn; try lia; auto.
          + now rewrite frame_bytes_event.
          + now apply Read_frame_init. }
      destruct Hv0 as [v0 [Hc0 [Hw0 [Hp0 HR0]]]].
      destruct (Read_frame_view v0 fr c bo' ch' plen Hc0 Hw0 Hp Hfr)
        as [v' [out [HR [Hw' [Hpe [Hlt Hin]]]]]].
      exists v', bo', ch', out.
      split; [exact (eq_trans HR0 HR)|]. split; [exact Hw'|].
      split; [reflexivity|]. cbn [pending app Chan.queue ch'].
      split; [|split].
      * unfold stream_bytes. cbn [List.map List.concat].
        rewrite <- Hp0, Hpe, <- !app_assoc. reflexivity.
      * assert (Hw : weight Quote v0 = S (List.length (frame_bytes Quote fr))).
        { rewrite <- Hp0. destruct v0; cbn in Hc0; [discriminate| |];
            reflexivity. }
        unfold queue_weight, stream_bytes in *.
        cbn [List.map List.concat List.length weight].
        rewrite List.length_app. lia.
      * apply incl_app; [|apply incl_tl, incl_refl].
        intros x Hx. apply Hin in Hx. destruct Hx as [<-|[]]. now left.
  - (* in the marker *)
    right. cbn [current app] in *.
    assert (Hfr : fits plen fr) by (inversion Hfit; assumption).
    destruct (Read_frame_view (InMarker fr k) fr c bo ch plen eq_refl Hwf Hp Hfr)
      as [v' [out [HR [Hw' [Hpe [Hlt Hin]]]]]].
    exists v', bo, ch, out. unfold Read. cbn [repr frame].
    split; [exact HR|]. split; [exact Hw'|]. split; [exact Hcl|].
    split; [now rewrite Hpe, <- app_assoc|]. split; [lia|].
    apply incl_app; [|apply incl_tl, incl_refl].
    intros x Hx. apply Hin in Hx. destruct Hx as [<-|[]]. now left.
  - (* in the data *)
    right. cbn [current app] in *.
    assert (Hfr : fits plen fr) by (inversion Hfit; assumption).
    destruct (Read_frame_view (InData fr k) fr c bo ch plen eq_refl Hwf Hp Hfr)
      as [v' [out [HR [Hw' [Hpe [Hlt Hin]]]]]].
    exists v', bo, ch, out. unfold Read. cbn [repr frame].
    split; [exact HR|]. split; [exact Hw'|]. split; [exact Hcl|].
    split; [now rewrite Hpe, <- app_assoc|]. split; [lia|].
    apply incl_app; [|apply incl_tl, incl_refl].
    intros x Hx. apply Hin in Hx. destruct Hx as [<-|[]]. now left.
Qed.

(** Enough calls read the rest of the stream. *)
Lemma read_all_view (bufs : list nat) :
  forall (v : view) (c : bool) (bo : Z) (ch : Chan.t StreamFrame.t),
    wf_view Quote v ->
    Chan.closed ch = true ->
    Forall (fun plen =>
              (1 <= plen)%nat /\ Forall (fits plen) (current v ++ Chan.queue ch))
           bufs ->
    (weight Quote v + queue_weight Quote (Chan.queue ch) < List.length bufs)%nat ->
    read_all Quote bufs (repr Quote v c bo) ch
    = Some (pending Quote v ++ stream_bytes Quote (Chan.queue ch)).
Proof.
  induction bufs as [|plen bufs IH]; intros v c bo ch Hwf Hcl Hall Hlen.
  - cbn in Hlen. lia.
  - inversion Hall as [|? ? [Hp Hfit] Hall']; subst.
    cbn [read_all].
    destruct (Read_view v c bo ch plen Hwf Hp Hfit Hcl)
      as [[-> [Hq HR]]|[v' [bo' [ch' [out [HR [Hw' [Hcl' [Hb [Hlt Hin]]]]]]]]]].
    + rewrite HR, Hq. reflexivity.
    + rewrite HR, Hb.
      rewrite (IH v' c bo' ch' Hw' Hcl'); [reflexivity| |cbn in Hlen; lia].
      apply Forall_forall. intros n Hn.
      rewrite Forall_forall in Hall'. destruct (Hall' n Hn) as [Hn1 Hn2].
      split; [exact Hn1|].
      apply Forall_forall. intros x Hx.
      rewrite Forall_forall in Hn2. apply Hn2, Hin, Hx.
Qed.

(** X17. The stream is read back as written when no call has to stop inside
    the data of a frame that carries an event: with non-empty buffers, each
    long enough for the data of every such frame (any length when event
    frames carry no data), the calls return, frame after frame, the marker
    of the event followed by the data, and then [io.EOF]. *)
Theorem read_all_stream_bytes (frs : list StreamFrame.t) (bufs : list nat) :
  Forall (fun plen => (1 <= plen)%nat /\ Forall (fits plen) frs) bufs ->
  (List.length (stream_bytes Quote frs) + List.length frs < List.length bufs)%nat ->
  read_all Quote bufs NewFrameReader (Chan.Build frs true)
  = Some (stream_bytes Quote frs).
Proof.
  intros Hall Hlen.
  change NewFrameReader with (repr Quote Idle false 0).
  rewrite (read_all_view bufs Idle false 0 (Chan.Build frs true));
    [reflexivity|exact I|reflexivity|exact Hall|exact Hlen].
Qed.

End ReadProps.

(** *** Concrete runs of the reader *)

Section ReadRuns.

Import StreamFrame FrameReader.

Lemma quote_ascii_plain (s : string) :
  strconv.all_plain s = true ->
  strconv.quote_ascii s
  = String strconv.dquote (s ++ String strconv.dquote EmptyString).
Proof.
  intros H. unfold strconv.quote_ascii. f_equal. f_equal.
  induction s as [|c s IH]; [reflexivity|].
  cbn [strconv.all_plain] in H. apply andb_true_iff in H. destruct H as [Hc Hs].
  cbn [strconv.escape_all]. rewrite (IH Hs).
  unfold strconv.escape_ascii. unfold strconv.plain in Hc. cbv zeta in *.
  destruct (N_of_ascii c =? 34)%N, (N_of_ascii c =? 92)%N,
    (32 <=? N_of_ascii c)%N, (N_of_ascii c <=? 126)%N;
    cbn in Hc; try discriminate.
  reflexivity.
Qed.

Lemma Read_closed_channel_witness :
  frame NewFrameReader = None
  /\ Chan.recv (Chan.Build (@nil StreamFrame.t) true) = Chan.Drained
  /\ Read strconv.quote_ascii NewFrameReader (Chan.Build [] true) 16
     = Ret (NewFrameReader, Chan.Build [] true, [], Some EOF).
Proof.
  split; [reflexivity|]. split; [reflexivity|].
  apply (Read_closed_channel strconv.quote_ascii NewFrameReader
           (Chan.Build [] true) 16); reflexivity.
Defined.

Lemma Read_event_marker_witness :
  Sample.truncated_marker
  = String newline
      ("nomad: " ++ strconv.quote_ascii "file truncated"
         ++ String newline EmptyString)
  /\ exists f',
       Read strconv.quote_ascii NewFrameReader
         (Chan.Build [Sample.truncated] true) 64
       = Ret (f', Chan.Build [] true,
              list_byte_of_string Sample.truncated_marker, None)
       /\ fileEvent f' = list_byte_of_string Sample.truncated_marker.
Proof.
  split; [reflexivity|].
  destruct (Read_event_marker strconv.quote_ascii NewFrameReader
              (Chan.Build [Sample.truncated] true) (Chan.Build [] true)
              Sample.truncated 64 eq_refl eq_refl eq_refl)
    as [f' [HR [Hm _]]].
  - discriminate.
  - exists f'. rewrite HR, Hm. split; reflexivity.
Defined.

Lemma Read_after_marker_drained_witness :
  let r := reads strconv.quote_ascii [64%nat] NewFrameReader
             (Chan.Build [Sample.truncated; Sample.hel] true) in
  frame (fst r) = Some Sample.truncated
  /\ fileEventOffset (fst r) = len (fileEvent (fst r))
  /\ exists f',
       Read strconv.quote_ascii (fst r) (snd r) 64
       = Ret (f', Chan.Build [Sample.hel] true, [], None)
       /\ frame f' = None.
Proof.
  cbv zeta. split; [reflexivity|]. split; [reflexivity|].
  destruct (Read_after_marker_drained strconv.quote_ascii
              (fst (reads strconv.quote_ascii [64%nat] NewFrameReader
                      (Chan.Build [Sample.truncated; Sample.hel] true)))
              Sample.truncated (Chan.Build [Sample.hel] true) 64)
    as [f' [HR [Hf _]]]; try reflexivity.
  - discriminate.
  - exists f'. split; [exact HR|exact Hf].
Defined.

(** After both frames have been read, [Offset] returns the offset of the
    second frame, 13, not that of the first, 10. *)
Lemma Offset_first_frame_counterexample :
  let r := reads strconv.quote_ascii [8; 8]%nat NewFrameReader
             (Chan.Build [Sample.hel; Sample.lo] true) in
  Chan.queue (snd r) = []
  /\ Offset (fst r) = 13
  /\ Offset (fst r) <> StreamFrame.Offset Sample.hel.
Proof.
  cbv zeta. split; [reflexivity|]. split; [reflexivity|].
  vm_compute. discriminate.
Qed.

Lemma Offset_is_last_taken_witness :
  Offset (fst (reads strconv.quote_ascii [8; 8]%nat NewFrameReader
                 (Chan.Build [Sample.hel; Sample.lo] true)))
  = StreamFrame.Offset Sample.lo.
Proof.
  destruct (Offset_is_last_taken strconv.quote_ascii [8; 8]%nat
              (Chan.Build [Sample.hel; Sample.lo] true))
    as [taken [Hq H]].
  cbn [Chan.queue] in Hq.
  change (Chan.queue (snd (reads strconv.quote_ascii [8; 8]%nat NewFrameReader
                             (Chan.Build [Sample.hel; Sample.lo] true))))
    with (@nil StreamFrame.t) in Hq.
  rewrite app_nil_r in Hq. subst taken.
  assert (Hne : [Sample.hel; Sample.lo] <> []) by discriminate.
  destruct (H Hne) as [_ Hr].
  apply Hr. vm_compute. split; [discriminate|reflexivity].
Defined.

(** C1 at the frame of [TestStreamFramer_Batch], read through buffers of
    two bytes: the marker of the event comes out a second time between
    the second and the third byte of the data, so the bytes read are not
    the marker followed by the data. *)
Theorem read_all_repeats_marker :
  read_all strconv.quote_ascii (repeat 2%nat 17) NewFrameReader
    (Chan.Build [Sample.batch] true)
  = Some (Sample.bar_marker ++ [x0a; x0b] ++ Sample.bar_marker ++ [x0c])
  /\ stream_bytes strconv.quote_ascii [Sample.batch]
     = Sample.bar_marker ++ [x0a; x0b; x0c]
  /\ read_all strconv.quote_ascii (repeat 2%nat 17) NewFrameReader
       (Chan.Build [Sample.batch] true)
     <> Some (stream_bytes strconv.quote_ascii [Sample.batch]).
Proof.
  split; [vm_compute; reflexivity|]. split; [vm_compute; reflexivity|].
  vm_compute. discriminate.
Qed.

Lemma read_all_stream_bytes_witness :
  read_all strconv.quote_ascii (repeat 3%nat 60) NewFrameReader
    (Chan.Build [Sample.hel; Sample.truncated; Sample.batch; Sample.lo] true)
  = Some (stream_bytes strconv.quote_ascii
            [Sample.hel; Sample.truncated; Sample.batch; Sample.lo]).
Proof.
  apply (read_all_stream_bytes strconv.quote_ascii).
  - apply Forall_forall. intros n Hn. apply repeat_spec in Hn. subst n.
    split; [lia|].
    repeat constructor; (left; reflexivity) || (right; cbn; lia).
  - vm_compute. lia.
Defined.

End ReadRuns.

(** ** The wire encoding *)

Section WireProps.

Import StreamFrame Wire.

Variable encInt : Z -> string.
Variable encBytes : list byte -> string.
Variable encString : string -> string.

Lemma emitted_heartbeat (s : StreamFrame.t) :
  IsHeartbeat s = true <-> emitted s = [].
Proof.
  rewrite IsHeartbeat_true_iff.
  unfold emitted, fields. cbn [filter omitempty val isEmptyValue andb].
  destruct s as [o d f e]. cbn [Offset Data File FileEvent].
  destruct (Z.eqb_spec o 0) as [Ho|Ho]; destruct d as [|b d];
    destruct f as [|c f]; destruct e as [|c' e]; cbn;
    split; try discriminate; try (intros [? [? [? ?]]]; congruence);
    try reflexivity; auto.
Qed.

(** C8. In the object written for a frame, each of the four keys is
    present exactly when its field is not at its zero value, so a
    heartbeat, and the zero frame in particular, is written as [{}]. *)
Theorem encode_omits_empty (s : StreamFrame.t) :
  (In "Offset"%string (keys (emitted s)) <-> Offset s <> 0)
  /\ (In "Data"%string (keys (emitted s)) <-> Data s <> [])
  /\ (In "File"%string (keys (emitted s)) <-> File s <> EmptyString)
  /\ (In "FileEvent"%string (keys (emitted s)) <-> FileEvent s <> EmptyString)
  /\ (IsHeartbeat s = true ->
      encode encInt encBytes encString s = "{}"%string)
  /\ encode encInt encBytes encString StreamFrame.zero = "{}"%string.
Proof.
  assert (Hk : (In "Offset"%string (keys (emitted s)) <-> Offset s <> 0)
               /\ (In "Data"%string (keys (emitted s)) <-> Data s <> [])
               /\ (In "File"%string (keys (emitted s)) <-> File s <> EmptyString)
               /\ (In "FileEvent"%string (keys (emitted s))
                   <-> FileEvent s <> EmptyString)).
  { unfold emitted, fields. cbn [filter omitempty val isEmptyValue andb].
    destruct s as [o d f e]. cbn [Offset Data File FileEvent].
    destruct (Z.eqb_spec o 0) as [Ho|Ho]; destruct d as [|b d];
      destruct f as [|c f]; destruct e as [|c' e];
      cbn [len List.length Z.of_nat Z.eqb String.length Nat.eqb negb keys
           List.map key In];
      repeat split; intros H;
      repeat match goal with
             | H : _ \/ _ |- _ => destruct H
             | H : False |- _ => destruct H
             end;
      try discriminate; try congruence; auto 6. }
  destruct Hk as [H1 [H2 [H3 H4]]].
  split; [exact H1|]. split; [exact H2|]. split; [exact H3|].
  split; [exact H4|]. split; [|reflexivity].
  intros Hb. unfold encode.
  now rewrite (proj1 (emitted_heartbeat s) Hb).
Qed.

End WireProps.

Lemma encode_omits_empty_witness :
  StreamFrame.IsHeartbeat StreamFrame.zero = true
  /\ Wire.encode (fun _ => "0"%string) (fun _ => "null"%string)
       (fun s => s) StreamFrame.zero = "{}"%string.
Proof.
  split; [reflexivity|].
  destruct (encode_omits_empty (fun _ => "0"%string) (fun _ => "null"%string)
              (fun s => s) StreamFrame.zero) as [_ [_ [_ [_ [H _]]]]].
  apply H. reflexivity.
Defined.

(** ** The stream framer *)

Section FramerProps.

Import StreamFrame StreamFramer.

Lemma same_key_eq (fr : StreamFrame.t) (file event : string) :
  same_key fr file event = true -> File fr = file /\ FileEvent fr = event.
Proof.
  unfold same_key. rewrite andb_true_iff, !String.eqb_eq. tauto.
Qed.

(** C9. When a [Send] on a working framer brings the data accumulated in
    the pending frame to [F] bytes or more, that frame, with all of the
    accumulated data and the offset it was created with, has been written
    to the sink when [Send] returns, after the frame of another (file,
    event) that was pending, if any; nothing is left pending and the batch
    timer is stopped. *)
Theorem Send_flushes_at_frame_size (s : StreamFramer.t) (file event : string)
    (data : list byte) (offset : Z) :
  destroyed s = false ->
  err s = None ->
  broken (out s) = false ->
  frameSize s <= len (accumulated s file event data) ->
  exists s',
    Send s file event data offset = (s', None)
    /\ pending s' = None
    /\ batchTimer s' = false
    /\ written (out s')
       = written (out s) ++ displaced s file event
           ++ [ {| Offset := pending_offset s file event offset;
                   Data := accumulated s file event data;
                   File := file; FileEvent := event |} ].
Proof.
  intros Hd He Hb Hsz.
  unfold Send, accumulated, pending_offset, displaced in *.
  rewrite Hd, He.
  destruct s as [F p tm er ds [w br]].
  cbn [destroyed err out broken frameSize pending written] in *.
  subst ds er br.
  apply Z.leb_le in Hsz.
  destruct p as [fr|].
  - destruct (same_key fr file event) eqn:Hk.
    + destruct (same_key_eq _ _ _ Hk) as [Hf Hv].
      unfold Flush, set_pending. cbn -[Z.leb len]. rewrite Hsz.
      cbn -[Z.leb len]. eexists. split; [reflexivity|].
      cbn. rewrite Hf, Hv. repeat split.
    + unfold Flush, set_pending. cbn -[Z.leb len]. rewrite Hsz.
      cbn -[Z.leb len]. eexists. split; [reflexivity|].
      cbn. rewrite <- app_assoc. repeat split.
  - unfold Flush, set_pending. cbn -[Z.leb len]. rewrite Hsz.
    cbn -[Z.leb len]. eexists. split; [reflexivity|].
    cbn. repeat split.
Qed.

End FramerProps.

Lemma Send_flushes_at_frame_size_witness :
  let s1 := fst (StreamFramer.Send (StreamFramer.NewStreamFramer 3)
                   "foo" "bar" [x0a] 10) in
  StreamFramer.written (StreamFramer.out s1) = []
  /\ StreamFramer.written
       (StreamFramer.out
          (fst (StreamFramer.Send s1 "foo" "bar" [x0b; x0c] 10)))
     = [Sample.batch].
Proof.
  cbv zeta. split; [reflexivity|].
  pose proof (Send_flushes_at_frame_size
                (fst (StreamFramer.Send (StreamFramer.NewStreamFramer 3)
                        "foo" "bar" [x0a] 10))
                "foo" "bar" [x0b; x0c] 10 eq_refl eq_refl eq_refl) as H.
  assert (Hsz : 3 <= 3) by (vm_compute; discriminate).
  destruct (H Hsz) as [s' [HS [_ [_ Hw]]]].
  rewrite HS. cbn [fst]. rewrite Hw. reflexivity.
Defined.

(** * Further properties of the reader and of the decoder loop *)

Section ReaderMore.

Import StreamFrame FrameReader ReaderState.

Variable Quote : string -> string.

Lemma slice_from_ok (A : Type) (l : list A) (lo : Z) :
  0 <= lo <= len l -> slice_from l lo = Some (skipn (Z.to_nat lo) l).
Proof.
  intros H. unfold slice_from.
  replace (0 <=? lo) with true by (symmetry; apply Z.leb_le; lia).
  replace (lo <=? len l) with true by (symmetry; apply Z.leb_le; lia).
  reflexivity.
Qed.

Lemma len_copy_skipn (l : list byte) (lo : Z) (plen : nat) :
  0 <= lo <= len l ->
  0 <= len (copy plen (skipn (Z.to_nat lo) l)) <= len l - lo.
Proof.
  intros H. unfold copy, len in *.
  rewrite length_firstn, length_skipn. lia.
Qed.

Lemma length_copy (plen : nat) (src : list byte) :
  (List.length (copy plen src) <= plen)%nat.
Proof. unfold copy. rewrite length_firstn. lia. Qed.

(** [Read] on a reader that holds a frame, cursors within bounds: it
    returns, and the cursors are within bounds afterwards. *)
Lemma Read_frame_bounded (f : FrameReader.t) (fr : StreamFrame.t)
    (ch : Chan.t StreamFrame.t) (plen : nat) :
  frame f = Some fr ->
  bounded f ->
  exists f1 out,
    Read_frame Quote f fr ch plen = Ret (f1, ch, out, None) /\ bounded f1.
Proof.
  intros Hf [Hfe Hfo]. rewrite Hf in Hfo. unfold Read_frame.
  set (f' := if negb (String.eqb (FileEvent fr) EmptyString)
                && (len (fileEvent f) =? 0)
             then set_fileEventOffset 0
                    (set_fileEvent (event_marker Quote (FileEvent fr)) f)
             else f).
  assert (Hf' : frame f' = Some fr /\ frameOffset f' = frameOffset f
                /\ 0 <= fileEventOffset f' <= len (fileEvent f')).
  { unfold f'. destruct (_ && _); cbn; repeat split; auto; try lia;
      apply len_nonneg. }
  destruct Hf' as [Hfr [Hfo' Hfe']]. clearbody f'.
  destruct (negb (len (fileEvent f') =? 0)
            && negb (len (fileEvent f') =? fileEventOffset f')) eqn:Hc.
  - (* the marker is handed out *)
    rewrite (slice_from_ok _ _ _ Hfe').
    pose proof (len_copy_skipn (fileEvent f') _ plen Hfe') as Hn.
    eexists _, _. split; [reflexivity|].
    unfold bounded. cbn. rewrite Hfr, Hfo'. split; lia.
  - (* the data is handed out *)
    set (f'' := if len (fileEvent f') =? fileEventOffset f'
                then set_fileEventOffset 0 (set_fileEvent [] f') else f').
    assert (Hf'' : frame f'' = Some fr /\ frameOffset f'' = frameOffset f
                   /\ fileEvent f'' = [] /\ fileEventOffset f'' = 0).
    { unfold f''.
      destruct (Z.eqb_spec (len (fileEvent f')) (fileEventOffset f')) as [E|E].
      - cbn. auto.
      - destruct (Z.eqb_spec (len (fileEvent f')) 0) as [E0|E0];
          [|discriminate].
        repeat split; auto; [now apply len_nil_iff|lia]. }
    destruct Hf'' as [Hfr2 [Hfo2 [Hfe2 Hfeo2]]]. clearbody f''.
    assert (Hb : 0 <= frameOffset f'' <= len (Data fr)) by lia.
    rewrite (slice_from_ok _ _ _ Hb).
    pose proof (len_copy_skipn (Data fr) _ plen Hb) as Hn.
    eexists _, _. split; [reflexivity|].
    cbn [frameOffset set_frameOffset].
    destruct (Z.eqb_spec (len (Data fr))
                (frameOffset f'' + len (copy plen
                   (skipn (Z.to_nat (frameOffset f'')) (Data fr))))) as [E|E];
      unfold bounded; cbn; rewrite ?Hfr2, Hfe2, Hfeo2; cbn.
    + repeat split; lia.
    + unfold len at 1. cbn. split; lia.
Qed.

Lemma Read_bounded (f : FrameReader.t) (ch : Chan.t StreamFrame.t)
    (plen : nat) :
  bounded f ->
  Read Quote f ch plen = Blocked
  \/ exists f1 ch1 out e,
       Read Quote f ch plen = Ret (f1, ch1, out, e) /\ bounded f1.
Proof.
  intros Hb. unfold Read. destruct (frame f) as [fr|] eqn:Hf.
  - right. destruct (Read_frame_bounded f fr ch plen Hf Hb) as [f1 [out [H1 H2]]].
    eauto 8.
  - destruct (Chan.recv ch) as [fr ch'| |]; [|right; eauto 8|left; reflexivity].
    right.
    destruct (Read_frame_bounded
                (set_byteOffset (to_int (StreamFrame.Offset fr))
                   (set_frame (Some fr) f)) fr ch' plen eq_refl)
      as [f1 [out [H1 H2]]].
    + destruct Hb as [Hfe Hfo]. rewrite Hf in Hfo. destruct Hfo as [Hfo He].
      unfold bounded. cbn. rewrite Hfo. split; [exact Hfe|].
      pose proof (len_nonneg (Data fr)). lia.
    + eauto 8.
Qed.

Lemma reads_bounded_from (bufs : list nat) :
  forall (f : FrameReader.t) (ch : Chan.t StreamFrame.t),
    bounded f -> bounded (fst (reads Quote bufs f ch)).
Proof.
  induction bufs as [|plen bufs IH]; intros f ch Hb; cbn [reads]; [exact Hb|].
  destruct (Read_bounded f ch plen Hb) as [H|[f1 [ch1 [out [e [H H1]]]]]];
    rewrite H; [exact Hb|].
  destruct e as [[]|]; [exact Hb|]. now apply IH.
Qed.

Lemma bounded_new : bounded NewFrameReader.
Proof. unfold bounded. cbn. repeat split; lia. Qed.

(** X1. Whatever calls of [Read] a new reader has served, its cursors are
    within the buffers they index, and when it holds no frame the frame
    cursor is zero and the marker buffer is empty. *)
Theorem reads_keep_bounds (bufs : list nat) (frames : Chan.t StreamFrame.t) :
  bounded (fst (reads Quote bufs NewFrameReader frames)).
Proof. apply reads_bounded_from, bounded_new. Qed.

(** X2. [Read] never panics on a slice bound: after any calls of [Read] on
    a new reader, the next call returns or waits for a frame. *)
Theorem Read_never_panics (bufs : list nat) (frames : Chan.t StreamFrame.t)
    (plen : nat) :
  Read Quote (fst (reads Quote bufs NewFrameReader frames))
    (snd (reads Quote bufs NewFrameReader frames)) plen <> Panic.
Proof.
  pose proof (reads_bounded_from bufs NewFrameReader frames bounded_new) as Hb.
  destruct (Read_bounded _ (snd (reads Quote bufs NewFrameReader frames))
              plen Hb) as [H|[f1 [ch1 [out [e [H _]]]]]];
    rewrite H; discriminate.
Qed.

Lemma Read_frame_out (f f1 : FrameReader.t) (fr : StreamFrame.t)
    (ch ch1 : Chan.t StreamFrame.t) (plen : nat) (out : list byte)
    (e : option error) :
  Read_frame Quote f fr ch plen = Ret (f1, ch1, out, e) ->
  (List.length out <= plen)%nat.
Proof.
  unfold Read_frame.
  repeat match goal with
         | |- context [match slice_from ?a ?b with _ => _ end] =>
             destruct (slice_from a b)
         | |- context [if ?c then _ else _] => destruct c
         end;
    intros H; inversion H; subst; apply length_copy.
Qed.

Lemma Read_frame_not_Blocked (f : FrameReader.t) (fr : StreamFrame.t)
    (ch : Chan.t StreamFrame.t) (plen : nat) :
  Read_frame Quote f fr ch plen <> Blocked.
Proof.
  unfold Read_frame.
  repeat match goal with
         | |- context [match slice_from ?a ?b with _ => _ end] =>
             destruct (slice_from a b)
         | |- context [if ?c then _ else _] => destruct c
         end; discriminate.
Qed.

(** X3. [Read] returns at most as many bytes as the buffer holds, and none
    together with [io.EOF]. *)
Theorem Read_within_buffer (f f1 : FrameReader.t)
    (ch ch1 : Chan.t StreamFrame.t) (plen : nat) (out : list byte)
    (e : option error) :
  Read Quote f ch plen = Ret (f1, ch1, out, e) ->
  (List.length out <= plen)%nat /\ (e = Some EOF -> out = []).
Proof.
  unfold Read. destruct (frame f) as [fr|].
  - intros H. split; [exact (Read_frame_out _ _ _ _ _ _ _ _ H)|].
    apply Read_frame_keeps in H. destruct H as [_ [_ [_ ->]]]. discriminate.
  - destruct (Chan.recv ch) as [fr ch'| |]; [| |discriminate].
    + intros H. split; [exact (Read_frame_out _ _ _ _ _ _ _ _ H)|].
      apply Read_frame_keeps in H. destruct H as [_ [_ [_ ->]]]. discriminate.
    + intros H. inversion H; subst. split; [cbn; lia|reflexivity].
Qed.

(** X4. [Read] reports [io.EOF] only when it holds no frame and the frame
    channel is closed and empty: frames still buffered in a closed channel
    are read first.  The call then changes nothing. *)
Theorem Read_EOF_only_when_drained (f f1 : FrameReader.t)
    (ch ch1 : Chan.t StreamFrame.t) (plen : nat) (out : list byte) :
  Read Quote f ch plen = Ret (f1, ch1, out, Some EOF) ->
  frame f = None /\ Chan.queue ch = [] /\ Chan.closed ch = true
  /\ f1 = f /\ ch1 = ch /\ out = [].
Proof.
  unfold Read. destruct (frame f) as [fr|].
  - intros H. apply Read_frame_keeps in H. destruct H as [_ [_ [_ H]]].
    discriminate.
  - destruct (Chan.recv ch) as [fr ch'| |] eqn:Hr; [| |discriminate].
    + intros H. apply Read_frame_keeps in H. destruct H as [_ [_ [_ H]]].
      discriminate.
    + apply recv_Drained_iff in Hr. destruct Hr as [Hq Hc].
      intros H. inversion H; subst. repeat split; assumption.
Qed.

(** X5. [Read] waits exactly when it holds no frame and the frame channel
    is open and empty; with a frame in hand it never waits. *)
Theorem Read_waits_iff (f : FrameReader.t) (ch : Chan.t StreamFrame.t)
    (plen : nat) :
  Read Quote f ch plen = Blocked
  <-> frame f = None /\ Chan.queue ch = [] /\ Chan.closed ch = false.
Proof.
  unfold Read. destruct (frame f) as [fr|].
  - split; [intros H; now apply Read_frame_not_Blocked in H|].
    intros [H _]. discriminate.
  - unfold Chan.recv. destruct (Chan.queue ch) as [|fr q].
    + destruct (Chan.closed ch); split; try discriminate; auto.
      intros [_ [_ H]]. discriminate.
    + split; [intros H; now apply Read_frame_not_Blocked in H|].
      intros [_ [H _]]. discriminate.
Qed.

(** X6. A frame with neither event nor data, taken by a reader that holds
    none, is dropped in the same call: [Read] returns no bytes and a nil
    error, whatever the buffer, remembers the offset of the frame and
    holds no frame afterwards. *)
Theorem Read_empty_frame (f : FrameReader.t) (fr : StreamFrame.t)
    (q : list StreamFrame.t) (cl : bool) (plen : nat) :
  frame f = None ->
  fileEvent f = [] ->
  fileEventOffset f = 0 ->
  frameOffset f = 0 ->
  FileEvent fr = EmptyString ->
  Data fr = [] ->
  Read Quote f (Chan.Build (fr :: q) cl) plen
  = Ret (set_byteOffset (to_int (StreamFrame.Offset fr)) f,
         Chan.Build q cl, [], None).
Proof.
  intros Hf He Ho Hfo Hev Hd.
  destruct f as [c fr0 fo feo fe bo]. cbn in *. subst.
  unfold Read. cbn [frame Chan.recv Chan.queue Chan.closed].
  unfold Read_frame. rewrite Hev, Hd. cbn.
  destruct plen; reflexivity.
Qed.

(** X7. [Read] does not look at the closed flag and [Close] touches
    nothing else: closing first and reading next, or reading first and
    closing next, give the same bytes, the same error, the same channels
    and the same reader. *)
Theorem Close_Read_commute (f f1 : FrameReader.t)
    (ch ch1 : Chan.t StreamFrame.t) (plen : nat) (out : list byte)
    (e : option error) :
  closed f = false ->
  Read Quote f ch plen = Ret (f1, ch1, out, e) ->
  exists fc fc1,
    Close f SigOpen = Ret (fc, SigClosed, None)
    /\ Read Quote fc ch plen = Ret (fc1, ch1, out, e)
    /\ Close f1 SigOpen = Ret (fc1, SigClosed, None).
Proof.
  intros Hc HR.
  exists (set_closed true f), (set_closed true f1).
  split; [unfold Close; now rewrite Hc|].
  assert (Hc1 : closed f1 = false).
  { revert HR. unfold Read. destruct (frame f) as [fr|].
    - intros H. apply Read_frame_keeps in H. destruct H as [_ [_ [H _]]].
      congruence.
    - destruct (Chan.recv ch) as [fr ch'| |]; [| |discriminate].
      + intros H. apply Read_frame_keeps in H. destruct H as [_ [_ [H _]]].
        cbn in H. congruence.
      + intros H. inversion H; subst. exact Hc. }
  split; [|unfold Close; now rewrite Hc1].
  revert HR. unfold Read. cbn [frame set_closed].
  assert (HF : forall g fr c,
             Read_frame Quote (set_closed true g) fr c plen
             = match Read_frame Quote g fr c plen with
               | Ret (g1, c1, o, e1) => Ret (set_closed true g1, c1, o, e1)
               | Blocked => Blocked
               | Panic => Panic
               end).
  { intros [c0 fr0 fo feo fe bo] fr c. unfold Read_frame.
    cbv beta iota zeta delta [fileEvent set_closed].
    destruct (negb (String.eqb (FileEvent fr) EmptyString) && (len fe =? 0));
    repeat (cbv beta iota zeta delta
              [fileEvent fileEventOffset frameOffset set_closed
               set_fileEvent set_fileEventOffset set_frameOffset set_frame
               closed frame byteOffset];
            match goal with
            | |- context [if ?c then _ else _] => destruct c
            | |- context [match slice_from ?a ?b with _ => _ end] =>
                destruct (slice_from a b)
            end);
      reflexivity. }
  destruct (frame f) as [fr|].
  - intros H. rewrite HF, H. reflexivity.
  - destruct (Chan.recv ch) as [fr ch'| |]; [| |discriminate].
    + intros H.
      change (set_byteOffset (to_int (StreamFrame.Offset fr))
                (set_frame (Some fr) (set_closed true f)))
        with (set_closed true
                (set_byteOffset (to_int (StreamFrame.Offset fr))
                   (set_frame (Some fr) f))).
      rewrite HF, H. reflexivity.
    + intros H. inversion H; subst. reflexivity.
Qed.

End ReaderMore.

Lemma Read_within_buffer_witness :
  FrameReader.Read strconv.quote_ascii FrameReader.NewFrameReader
    (Chan.Build [Sample.hel] true) 2
  = Ret (FrameReader.repr strconv.quote_ascii
           (FrameReader.InData Sample.hel 2) false 10,
         Chan.Build [] true, [x68; x65], None)
  /\ (List.length [x68; x65] <= 2)%nat
  /\ (@None error = Some EOF -> [x68; x65] = @nil byte).
Proof.
  split; [reflexivity|].
  apply (Read_within_buffer strconv.quote_ascii FrameReader.NewFrameReader
           (FrameReader.repr strconv.quote_ascii
              (FrameReader.InData Sample.hel 2) false 10)
           (Chan.Build [Sample.hel] true) (Chan.Build [] true) 2
           [x68; x65] None).
  reflexivity.
Defined.

Lemma Read_EOF_only_when_drained_witness :
  FrameReader.Read strconv.quote_ascii FrameReader.NewFrameReader
    (Chan.Build [] true) 4
  = Ret (FrameReader.NewFrameReader, Chan.Build [] true, [], Some EOF)
  /\ FrameReader.frame FrameReader.NewFrameReader = None
  /\ Chan.queue (Chan.Build (@nil StreamFrame.t) true) = []
  /\ Chan.closed (Chan.Build (@nil StreamFrame.t) true) = true.
Proof.
  split; [reflexivity|].
  destruct (Read_EOF_only_when_drained strconv.quote_ascii
              FrameReader.NewFrameReader FrameReader.NewFrameReader
              (Chan.Build [] true) (Chan.Build [] true) 4 [] eq_refl)
    as [H1 [H2 [H3 _]]].
  split; [exact H1|]. split; [exact H2|exact H3].
Defined.

Lemma Read_empty_frame_witness :
  FrameReader.Read strconv.quote_ascii FrameReader.NewFrameReader
    (Chan.Build
       [StreamFrame.Build 7 [] "foo" EmptyString; Sample.hel] false) 0
  = Ret (FrameReader.set_byteOffset 7 FrameReader.NewFrameReader,
         Chan.Build [Sample.hel] false, [], None).
Proof.
  apply (Read_empty_frame strconv.quote_ascii FrameReader.NewFrameReader
           (StreamFrame.Build 7 [] "foo" EmptyString));
    reflexivity.
Defined.

Lemma Close_Read_commute_witness :
  exists fc fc1,
    FrameReader.Close FrameReader.NewFrameReader SigOpen
      = Ret (fc, SigClosed, None)
    /\ FrameReader.Read strconv.quote_ascii fc (Chan.Build [Sample.hel] true) 2
       = Ret (fc1, Chan.Build [] true, [x68; x65], None)
    /\ FrameReader.frame fc1 = Some Sample.hel.
Proof.
  destruct (Close_Read_commute strconv.quote_ascii FrameReader.NewFrameReader
              (fst (FrameReader.reads strconv.quote_ascii [2%nat]
                      FrameReader.NewFrameReader
                      (Chan.Build [Sample.hel] true)))
              (Chan.Build [Sample.hel] true) (Chan.Build [] true) 2
              [x68; x65] None eq_refl eq_refl)
    as [fc [fc1 [H1 [H2 H3]]]].
  exists fc, fc1. split; [exact H1|]. split; [exact H2|].
  inversion H3; subst. reflexivity.
Defined.

(** ** The decoder loop and the reader together *)

Section StreamMore.

Import StreamFrame AllocFS FrameReader ReaderState.

Variable Quote : string -> string.

(** The loop closes the frames channel exactly when it reaches the error
    of the decoder: no cancel was seen before any decode nor before the
    one that fails. *)
Lemma Stream_loop_closed (cancelled : nat -> bool) (body : list StreamFrame.t) :
  forall (i : nat) (ch : Chan.t StreamFrame.t),
    Chan.closed ch = false ->
    exists c,
      Stream_loop cancelled i body ch = Ret c
      /\ (Chan.closed c = true
          <-> forall j, (i <= j <= i + List.length body)%nat ->
                        cancelled j = false).
Proof.
  induction body as [|frame rest IH]; intros i ch Hopen; cbn [Stream_loop].
  - destruct (cancelled i) eqn:Hi.
    + exists ch. split; [reflexivity|]. rewrite Hopen.
      split; [discriminate|]. intros H.
      rewrite (H i) in Hi by (cbn; lia). discriminate.
    + unfold Chan.close. rewrite Hopen. eexists. split; [reflexivity|].
      cbn. split; [|reflexivity]. intros _ j Hj.
      replace j with i by lia. exact Hi.
  - destruct (cancelled i) eqn:Hi.
    + exists ch. split; [reflexivity|]. rewrite Hopen.
      split; [discriminate|]. intros H.
      rewrite (H i) in Hi by (cbn; lia). discriminate.
    + assert (Hstep : forall ch', Chan.closed ch' = false ->
                exists c, Stream_loop cancelled (S i) rest ch' = Ret c
                  /\ (Chan.closed c = true
                      <-> forall j,
                            (i <= j <= i + List.length (frame :: rest))%nat ->
                            cancelled j = false)).
      { intros ch' Hch'. destruct (IH (S i) ch' Hch') as [c [Hc Hiff]].
        exists c. split; [exact Hc|]. rewrite Hiff. cbn [List.length].
        split; intros H j Hj.
        - destruct (Nat.eq_dec j i) as [->|Hne]; [exact Hi|].
          apply H. lia.
        - apply H. lia. }
      destruct (IsHeartbeat frame); [apply Hstep, Hopen|].
      unfold Chan.send. rewrite Hopen. apply Hstep. reflexivity.
Qed.

Lemma decoded_never_cancelled (cancelled : nat -> bool)
    (body : list StreamFrame.t) :
  forall i,
    (forall j, (i <= j <= i + List.length body)%nat -> cancelled j = false) ->
    decoded cancelled i body = body.
Proof.
  induction body as [|frame rest IH]; intros i H; cbn [decoded].
  - now destruct (cancelled i).
  - rewrite (H i) by (cbn; lia). f_equal. apply IH.
    intros j Hj. apply H. cbn [List.length]. lia.
Qed.

Lemma frame_bytes_heartbeat (fr : StreamFrame.t) :
  IsHeartbeat fr = true -> frame_bytes Quote fr = [].
Proof.
  intros H. apply IsHeartbeat_true_iff in H. destruct H as [Hd [_ [He _]]].
  unfold frame_bytes. now rewrite He, Hd.
Qed.

Lemma stream_bytes_live (frs : list StreamFrame.t) :
  stream_bytes Quote (filter live frs) = stream_bytes Quote frs.
Proof.
  unfold stream_bytes. induction frs as [|fr frs IH]; [reflexivity|].
  cbn [filter List.map List.concat]. unfold live at 1.
  destruct (IsHeartbeat fr) eqn:Hb; cbn [negb List.map List.concat].
  - now rewrite IH, (frame_bytes_heartbeat fr Hb).
  - now rewrite IH.
Qed.

Lemma length_filter_le (A : Type) (p : A -> bool) (l : list A) :
  (List.length (filter p l) <= List.length l)%nat.
Proof.
  induction l as [|x l IH]; [cbn; lia|].
  cbn [filter]. destruct (p x); cbn [List.length]; lia.
Qed.

(** X9. With no cancel, what the decoder loop delivers and the reader
    reads back is the whole body: the markers and the data of its frames
    in order, heartbeats counting for nothing, then [io.EOF]; this for
    non-empty buffers long enough for the data of each frame that carries
    an event. *)
Theorem Stream_then_read_all (cancelled : nat -> bool)
    (body : list StreamFrame.t) (bufs : list nat) :
  never_cancelled cancelled (List.length body) ->
  Forall (fun plen => (1 <= plen)%nat /\ Forall (fits plen) body) bufs ->
  (List.length (stream_bytes Quote body) + List.length body
   < List.length bufs)%nat ->
  exists frames,
    Stream cancelled body = Ret frames
    /\ read_all Quote bufs NewFrameReader frames
       = Some (stream_bytes Quote body).
Proof.
  intros Hnc Hall Hlen.
  assert (Hj : forall j, (0 <= j <= 0 + List.length body)%nat ->
                         cancelled j = false).
  { intros j Hj. apply Hnc. lia. }
  destruct (Stream_loop_closed cancelled body 0%nat Chan.make eq_refl)
    as [c [Hc Hiff]].
  destruct (Stream_loop_queue cancelled body 0%nat Chan.make eq_refl)
    as [c' [Hc' Hq]].
  rewrite Hc in Hc'. inversion Hc'; subst c'. clear Hc'.
  cbn [Chan.queue Chan.make app] in Hq.
  rewrite (decoded_never_cancelled cancelled body 0%nat Hj) in Hq.
  exists c. split; [exact Hc|].
  change NewFrameReader with (repr Quote Idle false 0).
  rewrite (read_all_view Quote bufs Idle false 0 c).
  - cbn [pending app]. now rewrite Hq, stream_bytes_live.
  - exact I.
  - now apply Hiff.
  - cbn [current app]. rewrite Hq.
    apply Forall_forall. intros n Hn. rewrite Forall_forall in Hall.
    destruct (Hall n Hn) as [H1 H2]. split; [exact H1|].
    apply Forall_forall. intros x Hx. apply filter_In in Hx.
    rewrite Forall_forall in H2. apply H2, Hx.
  - cbn [weight]. unfold queue_weight. rewrite Hq, stream_bytes_live.
    pose proof (length_filter_le _ live body). lia.
Qed.

Lemma Read_keeps_channel_open (f f1 : FrameReader.t)
    (ch ch1 : Chan.t StreamFrame.t) (plen : nat) (out : list byte)
    (e : option error) :
  Chan.closed ch = false ->
  Read Quote f ch plen = Ret (f1, ch1, out, e) ->
  Chan.closed ch1 = false /\ e = None.
Proof.
  intros Ho. unfold Read. destruct (frame f) as [fr|].
  - intros H. apply Read_frame_keeps in H. destruct H as [-> [_ [_ ->]]].
    auto.
  - unfold Chan.recv. destruct (Chan.queue ch) as [|fr q].
    + rewrite Ho. discriminate.
    + intros H. apply Read_frame_keeps in H. destruct H as [-> [_ [_ ->]]].
      cbn. auto.
Qed.

Lemma read_all_open (bufs : list nat) :
  forall (f : FrameReader.t) (ch : Chan.t StreamFrame.t),
    Chan.closed ch = false -> read_all Quote bufs f ch = None.
Proof.
  induction bufs as [|plen bufs IH]; intros f ch Ho; cbn [read_all];
    [reflexivity|].
  destruct (Read Quote f ch plen) as [[[[f1 ch1] out] e]| |] eqn:HR;
    try reflexivity.
  destruct (Read_keeps_channel_open _ _ _ _ _ _ _ Ho HR) as [Ho1 ->].
  now rewrite (IH f1 ch1 Ho1).
Qed.

(** X10. When the loop is ended by a cancel, the reader never reaches the
    end of the stream: the channel was left open, so however many calls of
    [Read] are made none returns [io.EOF]. *)
Theorem Stream_cancelled_no_EOF (cancelled : nat -> bool)
    (body : list StreamFrame.t) (i : nat) :
  (i <= List.length body)%nat ->
  cancelled i = true ->
  exists frames,
    Stream cancelled body = Ret frames
    /\ Chan.closed frames = false
    /\ forall bufs, read_all Quote bufs NewFrameReader frames = None.
Proof.
  intros Hi Hc.
  destruct (Stream_loop_closed cancelled body 0%nat Chan.make eq_refl)
    as [c [HS Hiff]].
  assert (Ho : Chan.closed c = false).
  { apply not_true_iff_false. intros Ht.
    rewrite (proj1 Hiff Ht i) in Hc by lia. discriminate. }
  exists c. split; [exact HS|]. split; [exact Ho|].
  intros bufs. now apply read_all_open.
Qed.

End StreamMore.

Lemma Stream_then_read_all_witness :
  exists frames,
    AllocFS.Stream (fun _ => false)
      [StreamFrame.zero; Sample.hel; Sample.truncated; StreamFrame.zero;
       Sample.lo]
    = Ret frames
    /\ FrameReader.read_all strconv.quote_ascii (repeat 4%nat 40)
         FrameReader.NewFrameReader frames
       = Some (FrameReader.stream_bytes strconv.quote_ascii
                 [Sample.hel; Sample.truncated; Sample.lo]).
Proof.
  apply (Stream_then_read_all strconv.quote_ascii (fun _ => false)
           [StreamFrame.zero; Sample.hel; Sample.truncated; StreamFrame.zero;
            Sample.lo] (repeat 4%nat 40)).
  - intros i _. reflexivity.
  - apply Forall_forall. intros n Hn. apply repeat_spec in Hn. subst n.
    split; [lia|].
    repeat constructor; (left; reflexivity) || (right; cbn; lia).
  - vm_compute. lia.
Defined.

Lemma Stream_cancelled_no_EOF_witness :
  exists frames,
    AllocFS.Stream (fun i => Nat.leb 1 i) [Sample.hel; Sample.lo] = Ret frames
    /\ Chan.closed frames = false
    /\ FrameReader.read_all strconv.quote_ascii (repeat 8%nat 5)
         FrameReader.NewFrameReader frames = None.
Proof.
  destruct (Stream_cancelled_no_EOF strconv.quote_ascii (fun i => Nat.leb 1 i)
              [Sample.hel; Sample.lo] 1) as [c [H1 [H2 H3]]].
  - cbn. lia.
  - reflexivity.
  - exists c. split; [exact H1|]. split; [exact H2|apply H3].
Defined.

(** * The [fs] command *)

Section FSCommandProps.

Import FSCommand.

Variable Intn : Z -> Z.

Lemma index_In (A : Type) (l : list A) (i : Z) :
  0 <= i < len l -> exists a, index l i = Some a /\ In a l.
Proof.
  intros H. unfold index.
  replace (0 <=? i) with true by (symmetry; apply Z.leb_le; lia).
  replace (i <? len l) with true by (symmetry; apply Z.ltb_lt; lia).
  cbn [andb].
  destruct (nth_error l (Z.to_nat i)) as [a|] eqn:Hn.
  - exists a. split; [reflexivity|]. eapply nth_error_In, Hn.
  - apply nth_error_None in Hn. unfold len in H. lia.
Qed.

(** X11. [getRandomJobAlloc] fails with its own error, hiding the one of
    the API call, when there is no allocation.  Otherwise, with [Intn]
    answering within its range, it does not panic and returns, together
    with the error of the API call, the id of one of the allocations,
    which is a running one whenever any allocation is running. *)
Theorem getRandomJobAlloc_prefers_running
    (allocs : list AllocationListStub) (err : option cmd_error)
    (jobID : string) :
  (forall n, 0 < n -> 0 <= Intn n < n) ->
  (allocs = [] ->
   getRandomJobAlloc Intn allocs err jobID
   = Ret (EmptyString, Some (NoAllocations jobID)))
  /\ (allocs <> [] ->
      exists a,
        In a allocs
        /\ getRandomJobAlloc Intn allocs err jobID = Ret (ID a, err)
        /\ ((exists b, In b allocs /\ ClientStatus b = "running"%string) ->
            ClientStatus a = "running"%string)).
Proof.
  intros HI. split; [intros ->; reflexivity|].
  intros Hne. unfold getRandomJobAlloc.
  replace (len allocs =? 0) with false
    by (symmetry; apply Z.eqb_neq; rewrite len_nil_iff; exact Hne).
  destruct (len (filter running allocs) <? 1) eqn:Hr.
  - (* nothing is running *)
    apply Z.ltb_lt in Hr.
    assert (Hf : filter running allocs = []).
    { apply len_nil_iff. pose proof (len_nonneg (filter running allocs)). lia. }
    assert (Hpos : 0 < len allocs).
    { pose proof (len_nonneg allocs).
      assert (len allocs <> 0) by (rewrite len_nil_iff; exact Hne). lia. }
    replace (len allocs <=? 0) with false
      by (symmetry; apply Z.leb_gt; exact Hpos).
    destruct (index_In _ allocs _ (HI _ Hpos)) as [a [Ha Hin]].
    exists a. rewrite Ha. split; [exact Hin|]. split; [reflexivity|].
    intros [b [Hb Hs]].
    assert (Hbf : In b (filter running allocs)).
    { apply filter_In. split; [exact Hb|]. unfold running.
      now apply String.eqb_eq. }
    rewrite Hf in Hbf. destruct Hbf.
  - (* some allocation is running *)
    apply Z.ltb_ge in Hr.
    replace (len (filter running allocs) <=? 0) with false
      by (symmetry; apply Z.leb_gt; lia).
    assert (Hpos : 0 < len (filter running allocs)) by lia.
    destruct (index_In _ (filter running allocs) _ (HI _ Hpos))
      as [a [Ha Hin]].
    apply filter_In in Hin. destruct Hin as [Hin Hrun].
    exists a. rewrite Ha. split; [exact Hin|]. split; [reflexivity|].
    intros _. now apply String.eqb_eq.
Qed.

End FSCommandProps.

Lemma getRandomJobAlloc_prefers_running_witness :
  exists a,
    FSCommand.getRandomJobAlloc (fun n => n - 1)
      [FSCommand.Stub "a1" "complete"; FSCommand.Stub "b2" "running";
       FSCommand.Stub "c3" "pending"] None "job"
    = Ret (FSCommand.ID a, None)
    /\ FSCommand.ClientStatus a = "running"%string.
Proof.
  destruct (getRandomJobAlloc_prefers_running (fun n => n - 1)
              [FSCommand.Stub "a1" "complete"; FSCommand.Stub "b2" "running";
               FSCommand.Stub "c3" "pending"] None "job")
    as [_ H].
  - intros n Hn. lia.
  - destruct H as [a [_ [HR Hrun]]]; [discriminate|].
    exists a. split; [exact HR|]. apply Hrun.
    exists (FSCommand.Stub "b2" "running"). split; [|reflexivity].
    right. left. reflexivity.
Defined.

Section RunPrefixProps.

Import FSCommand.



Lemma prefix_refl (s : string) : String.prefix s s = true.
Proof.
  induction s as [|c s IH]; cbn; [reflexivity|].
  destruct (Ascii.ascii_dec c c) as [_|Hc]; [exact IH|congruence].
Qed.



End RunPrefixProps.

(** * Flattening *)

Section MapProps.

Import diff.

Lemma find_filter_other (k k' : string) (m : smap) :
  k <> k' ->
  find (fun kv => String.eqb (fst kv) k')
    (filter (fun kv => negb (String.eqb (fst kv) k)) m)
  = find (fun kv => String.eqb (fst kv) k') m.
Proof.
  intros Hne. induction m as [|[a b] m IH]; [reflexivity|].
  cbn [filter find fst].
  destruct (String.eqb_spec a k) as [->|Ha]; cbn [negb find fst].
  - rewrite IH. destruct (String.eqb_spec k k') as [E|_]; [contradiction|].
    reflexivity.
  - now rewrite IH.
Qed.

Lemma get_set_eq (k v : string) (m : smap) : get k (set k v m) = Some v.
Proof. unfold get, set. cbn. now rewrite String.eqb_refl. Qed.

Lemma get_set_ne (k k' v : string) (m : smap) :
  k <> k' -> get k' (set k v m) = get k' m.
Proof.
  intros Hne. unfold get, set. cbn [find fst].
  destruct (String.eqb_spec k k') as [E|_]; [contradiction|].
  now rewrite find_filter_other.
Qed.

Lemma prefix_empty (k : string) : String.prefix EmptyString k = true.
Proof. now destruct k. Qed.

Lemma prefix_app_true (p s k : string) :
  String.prefix (p ++ s) k = true -> String.prefix p k = true.
Proof.
  revert k. induction p as [|c p IH]; intros k; [intros _; apply prefix_empty|].
  destruct k as [|c' k]; cbn; [discriminate|].
  destruct (Ascii.ascii_dec c c'); [apply IH|discriminate].
Qed.

Lemma prefix_app_false (p s k : string) :
  String.prefix p k = false -> String.prefix (p ++ s) k = false.
Proof.
  intros H. apply not_true_iff_false. intros Ht.
  apply prefix_app_true in Ht. congruence.
Qed.

Lemma prefix_false_ne (p k : string) : String.prefix p k = false -> p <> k.
Proof. intros H ->. rewrite prefix_refl in H. discriminate. Qed.

(** A loop keeps what each of its iterations keeps. *)
Lemma each_from_keeps (A : Type) (f : nat -> A -> smap -> option smap)
    (R : smap -> smap -> Prop) (l : list A) :
  (forall o, R o o) ->
  (forall o1 o2 o3, R o1 o2 -> R o2 o3 -> R o1 o3) ->
  Forall (fun x => forall i o r, f i x o = Some r -> R o r) l ->
  forall i o r, each_from f i l o = Some r -> R o r.
Proof.
  intros Hrefl Htrans Hall. induction Hall as [|x l Hx _ IH]; intros i o r.
  - cbn. intros H. inversion H; subst. apply Hrefl.
  - cbn [each_from]. destruct (f i x o) as [o'|] eqn:Hf; [|discriminate].
    intros H. eapply Htrans; [eapply Hx, Hf|eapply IH, H].
Qed.

(** A loop ends without panic exactly when each iteration does. *)
Lemma each_from_some_iff (A : Type) (f : nat -> A -> smap -> option smap)
    (g : A -> bool) (l : list A) :
  Forall (fun x => forall i o, (exists r, f i x o = Some r) <-> g x = true) l ->
  forall i o, (exists r, each_from f i l o = Some r) <-> forallb g l = true.
Proof.
  intros Hall. induction Hall as [|x l Hx _ IH]; intros i o.
  - cbn. split; eauto.
  - cbn [each_from forallb]. rewrite andb_true_iff, <- (Hx i o).
    destruct (f i x o) as [o'|] eqn:Hf.
    + rewrite (IH (S i) o'). split; [intros H; split; eauto|tauto].
    + split; [intros [r Hr]; discriminate|intros [[r Hr] _]; discriminate].
Qed.

Lemma same_writes_refl (o1 o2 : smap) : same_writes o1 o2 o1 o2.
Proof. intros k. left. split; reflexivity. Qed.

Lemma same_writes_trans (o1 o2 m1 m2 r1 r2 : smap) :
  same_writes o1 o2 m1 m2 -> same_writes m1 m2 r1 r2 ->
  same_writes o1 o2 r1 r2.
Proof.
  intros H1 H2 k. destruct (H2 k) as [[Ha Hb]|Hx]; [|right; exact Hx].
  rewrite Ha, Hb. apply H1.
Qed.

Lemma same_writes_set (k v : string) (o1 o2 : smap) :
  same_writes o1 o2 (set k v o1) (set k v o2).
Proof.
  intros k'. destruct (string_dec k k') as [<-|Hne].
  - right. exists v. now rewrite !get_set_eq.
  - left. now rewrite !get_set_ne.
Qed.

(** A loop makes the same writes from two maps when each iteration
    does. *)
Lemma each_from_same_writes (A : Type)
    (f : nat -> A -> smap -> option smap) (l : list A) :
  Forall (fun x => forall i o1 o2 r1,
            f i x o1 = Some r1 ->
            exists r2, f i x o2 = Some r2 /\ same_writes o1 o2 r1 r2) l ->
  forall i o1 o2 r1,
    each_from f i l o1 = Some r1 ->
    exists r2, each_from f i l o2 = Some r2 /\ same_writes o1 o2 r1 r2.
Proof.
  intros Hall. induction Hall as [|x l Hx _ IH]; intros i o1 o2 r1.
  - cbn. intros H. inversion H; subst. exists o2.
    split; [reflexivity|apply same_writes_refl].
  - cbn [each_from]. destruct (f i x o1) as [m1|] eqn:Hf; [|discriminate].
    intros H. destruct (Hx i o1 o2 m1 Hf) as [m2 [Hf2 Hs]].
    rewrite Hf2. destruct (IH (S i) m1 m2 r1 H) as [r2 [Hr2 Hs2]].
    exists r2. split; [exact Hr2|]. eapply same_writes_trans; eassumption.
Qed.

End MapProps.

Section FlattenProps.

Import diff.

Variables float complex : Type.
Variable fmtFloat : float -> string.
Variable fmtComplex : complex -> string.

Local Abbreviation value := (diff.value float complex).
Local Abbreviation flatten := (diff.flatten float complex fmtFloat fmtComplex).
Local Abbreviation Flatten := (diff.Flatten float complex fmtFloat fmtComplex).

(** Induction on a value, with the property at hand for every value held
    in a map, a struct, an array or a slice. *)
Lemma value_nested_ind (P : value -> Prop) :
  P Invalid ->
  (forall b, P (Bool b)) ->
  (forall z, P (Int z)) ->
  (forall n, P (Uint n)) ->
  (forall x, P (Float x)) ->
  (forall x, P (Complex x)) ->
  (forall s, P (Str s)) ->
  (forall e, P e -> P (Ptr e)) ->
  (forall e, P e -> P (Iface e)) ->
  (forall entries, Forall (fun kx => P (snd kx)) entries -> P (Map entries)) ->
  (forall fields, Forall (fun nv => P (snd nv)) fields -> P (Struct fields)) ->
  (forall elems, Forall P elems -> P (Array elems)) ->
  P (Slice None) ->
  (forall elems, Forall P elems -> P (Slice (Some elems))) ->
  P Other ->
  forall v, P v.
Proof.
  intros HInvalid HBool HInt HUint HFloat HComplex HStr HPtr HIface HMap
    HStruct HArray HNil HSlice HOther.
  fix IH 1. intros v.
  destruct v as [|b|z|n|x|x|s|e|e|entries|fields|elems|[elems|]|].
  - exact HInvalid.
  - apply HBool.
  - apply HInt.
  - apply HUint.
  - apply HFloat.
  - apply HComplex.
  - apply HStr.
  - apply HPtr, IH.
  - apply HIface, IH.
  - apply HMap. revert entries. fix IHl 1.
    intros [|[k x] es]; constructor; [apply IH|apply IHl].
  - apply HStruct. revert fields. fix IHl 1.
    intros [|[name x] fs]; constructor; [apply IH|apply IHl].
  - apply HArray. revert elems. fix IHl 1.
    intros [|x es]; constructor; [apply IH|apply IHl].
  - apply HSlice. revert elems. fix IHl 1.
    intros [|x es]; constructor; [apply IH|apply IHl].
  - exact HNil.
  - exact HOther.
Qed.

(** Taking a struct field out of its interface beforehand changes nothing:
    [flatten] does it anyway. *)
Lemma flatten_field_elem (prefix : string) (val : value) (output : smap) :
  flatten prefix (field_elem val) output = flatten prefix val output.
Proof.
  destruct val as [|b|z|n|x|x|s|e|e|entries|fields|elems|elems|];
    try reflexivity.
  destruct e; reflexivity.
Qed.

Lemma flatten_Iface (prefix : string) (e : value) (output : smap) :
  flatten prefix (Iface e) output = flatten prefix e output.
Proof. destruct e; reflexivity. Qed.

Lemma supported_field_elem (val : value) :
  supported (field_elem val) = supported val.
Proof.
  destruct val as [|b|z|n|x|x|s|e|e|entries|fields|elems|elems|];
    try reflexivity.
  destruct e; reflexivity.
Qed.

(** X13. [flatten] only touches keys that begin with its prefix: an entry
    of the output map under any other key, present or not, is as it was
    before the call. *)
Theorem flatten_writes_under_prefix (prefix : string) (v : value)
    (output r : smap) (k : string) :
  flatten prefix v output = Some r ->
  String.prefix prefix k = false ->
  get k r = get k output.
Proof.
  revert prefix output r.
  induction v using value_nested_ind; intros prefix output r Hfl Hk;
    pose proof (prefix_false_ne _ _ Hk) as Hne;
    try (cbn in Hfl; inversion Hfl; subst; now apply get_set_ne);
    try discriminate.
  - (* Ptr *)
    cbn [diff.flatten] in Hfl. rewrite (IHv _ _ _ Hfl Hk).
    destruct (IsValid v); [reflexivity|now apply get_set_ne].
  - (* Iface *)
    rewrite flatten_Iface in Hfl. now apply (IHv _ _ _ Hfl Hk).
  - (* Map *)
    cbn [diff.flatten] in Hfl. revert Hfl.
    apply (each_from_keeps _ _ (fun o r => get k r = get k o));
      [reflexivity|intros; congruence|].
    eapply Forall_impl; [|exact H]. intros [key x] Hx i o r'. cbn [fst snd].
    destruct (key_elem key); try discriminate.
    intros Hf. apply (Hx _ _ _ Hf). now apply prefix_app_false.
  - (* Struct *)
    cbn [diff.flatten] in Hfl. revert Hfl.
    apply (each_from_keeps _ _ (fun o r => get k r = get k o));
      [reflexivity|intros; congruence|].
    eapply Forall_impl; [|exact H]. intros [name x] Hx i o r'. cbn [fst snd].
    rewrite flatten_field_elem. intros Hf. apply (Hx _ _ _ Hf).
    unfold field_prefix. destruct (String.eqb_spec prefix EmptyString) as [E|_].
    + subst prefix. now rewrite prefix_empty in Hk.
    + now apply prefix_app_false.
  - (* Array *)
    cbn [diff.flatten] in Hfl. revert Hfl.
    apply (each_from_keeps _ _ (fun o r => get k r = get k o));
      [reflexivity|intros; congruence|].
    eapply Forall_impl; [|exact H]. intros x Hx i o r' Hf.
    apply (Hx _ _ _ Hf). now apply prefix_app_false.
  - (* Slice *)
    cbn [diff.flatten] in Hfl. revert Hfl.
    apply (each_from_keeps _ _ (fun o r => get k r = get k o));
      [reflexivity|intros; congruence|].
    eapply Forall_impl; [|exact H]. intros x Hx i o r' Hf.
    apply (Hx _ _ _ Hf). now apply prefix_app_false.
Qed.

Lemma flatten_some_iff (v : value) :
  forall prefix output,
    (exists r, flatten prefix v output = Some r) <-> supported v = true.
Proof.
  induction v using value_nested_ind; intros prefix output;
    try (cbn; split; eauto; fail).
  - (* Ptr *) cbn [diff.flatten supported]. apply IHv.
  - (* Iface *) rewrite flatten_Iface. cbn [supported]. apply IHv.
  - (* Map *)
    cbn [diff.flatten supported]. apply each_from_some_iff.
    eapply Forall_impl; [|exact H]. intros [key x] Hx i o. cbn [fst snd].
    destruct (key_elem key);
      try (split; [intros [r Hr]; discriminate|discriminate]).
    apply Hx.
  - (* Struct *)
    cbn [diff.flatten supported]. apply each_from_some_iff.
    eapply Forall_impl; [|exact H]. intros [name x] Hx i o. cbn [fst snd].
    rewrite flatten_field_elem. apply Hx.
  - (* Array *)
    cbn [diff.flatten supported]. apply each_from_some_iff.
    eapply Forall_impl; [|exact H]. intros x Hx i o. apply Hx.
  - (* Slice *)
    cbn [diff.flatten supported]. apply each_from_some_iff.
    eapply Forall_impl; [|exact H]. intros x Hx i o. apply Hx.
  - (* Other *) cbn. split; [intros [r Hr]; discriminate|discriminate].
Qed.

(** X14. On a value that does not reach itself through pointers,
    interfaces, maps or slices (the values of [diff.value]; on the others
    the recursion has no end), [Flatten] panics exactly when the value
    holds, at some depth, a channel, a function or an unsafe pointer, or a
    map with a key that is not a string; on any other such value it
    returns a map, and the nil map only for a nil interface. *)
Theorem Flatten_panics_iff (obj : value) :
  (Flatten obj = None <-> supported obj = false)
  /\ (Flatten obj = Some None <-> obj = Invalid).
Proof.
  unfold diff.Flatten. split.
  - destruct (IsValid obj) eqn:Hv.
    + pose proof (flatten_some_iff obj EmptyString []) as Hiff.
      destruct (flatten EmptyString obj []) as [r|] eqn:Hf; cbn.
      * rewrite (proj1 Hiff (ex_intro _ r eq_refl)).
        split; discriminate.
      * split; [intros _|reflexivity].
        apply not_true_iff_false. intros Hs.
        apply Hiff in Hs. destruct Hs as [r Hr]. discriminate.
    + destruct obj; try discriminate. cbn. split; discriminate.
  - destruct obj; cbn [IsValid];
      try (destruct (flatten EmptyString _ []); cbn;
           split; discriminate).
    split; reflexivity.
Qed.

Lemma flatten_same_writes (v : value) :
  forall prefix o1 o2 r1,
    flatten prefix v o1 = Some r1 ->
    exists r2, flatten prefix v o2 = Some r2 /\ same_writes o1 o2 r1 r2.
Proof.
  induction v using value_nested_ind; intros prefix o1 o2 r1 Hfl;
    try (cbn in Hfl; inversion Hfl; subst; eexists;
         split; [reflexivity|apply same_writes_set]);
    try discriminate.
  - (* Ptr *)
    cbn [diff.flatten] in *.
    destruct (IHv prefix _ (if IsValid v then o2 else set prefix "nil" o2)
                r1 Hfl) as [r2 [H2 Hs]].
    exists r2. split; [exact H2|].
    eapply same_writes_trans; [|exact Hs].
    destruct (IsValid v); [apply same_writes_refl|apply same_writes_set].
  - (* Iface *)
    rewrite flatten_Iface in *.  apply IHv, Hfl.
  - (* Map *)
    cbn [diff.flatten] in *. revert Hfl. apply each_from_same_writes.
    eapply Forall_impl; [|exact H]. intros [key x] Hx i a b r'. cbn [fst snd].
    destruct (key_elem key); try discriminate. apply Hx.
  - (* Struct *)
    cbn [diff.flatten] in *. revert Hfl. apply each_from_same_writes.
    eapply Forall_impl; [|exact H]. intros [name x] Hx i a b r'. cbn [fst snd].
    rewrite !flatten_field_elem. apply Hx.
  - (* Array *)
    cbn [diff.flatten] in *. revert Hfl. apply each_from_same_writes.
    eapply Forall_impl; [|exact H]. intros x Hx i a b r'. apply Hx.
  - (* Slice *)
    cbn [diff.flatten] in *. revert Hfl. apply each_from_same_writes.
    eapply Forall_impl; [|exact H]. intros x Hx i a b r'. apply Hx.
Qed.

(** X15. What [flatten] writes does not depend on what the output map
    holds: called on any map, it ends as it does on the empty map and
    leaves, under each key, what it writes there on the empty map, and
    what the map held before under the keys it does not write. *)
Theorem flatten_merges (prefix : string) (v : value) (w : smap) :
  flatten prefix v [] = Some w ->
  forall output,
    exists r,
      flatten prefix v output = Some r
      /\ forall k,
           get k r = match get k w with
                     | Some x => Some x
                     | None => get k output
                     end.
Proof.
  intros Hw output.
  destruct (flatten_same_writes v prefix [] output w Hw) as [r [Hr Hs]].
  exists r. split; [exact Hr|]. intros k.
  destruct (Hs k) as [[Ha Hb]|[x [Ha Hb]]].
  - rewrite Ha, Hb. reflexivity.
  - rewrite Ha, Hb. reflexivity.
Qed.

Local Abbreviation leaf := (diff.leaf float complex fmtFloat fmtComplex).

Lemma flatten_leaf (prefix : string) (v : value) (s : string) (output : smap) :
  leaf v = Some s ->
  flatten prefix (field_elem v) output = Some (set prefix s output).
Proof.
  rewrite flatten_field_elem.
  destruct v as [|b|z|n|x|x|s'|e|e|entries|fields|elems|[elems|]|];
    try discriminate; intros H; inversion H; subst; reflexivity.
Qed.

Lemma flatten_fields_leaves (fields : list (string * value)) :
  NoDup (List.map fst fields) ->
  Forall (fun nv => leaf (snd nv) <> None) fields ->
  forall (i : nat) (output : smap),
    exists r,
      each_from
        (fun _ nv o => flatten (field_prefix EmptyString (fst nv))
                         (field_elem (snd nv)) o)
        i fields output = Some r
      /\ forall k,
           (~ In k (List.map fst fields) -> get k r = get k output)
           /\ (forall val, In (k, val) fields -> get k r = leaf val).
Proof.
  induction fields as [|[name v] fs IH]; intros Hnd Hall i output.
  - exists output. split; [reflexivity|]. intros k. split; [reflexivity|].
    intros val [].
  - cbn [List.map fst] in Hnd. inversion Hnd as [|? ? Hnotin Hnd']; subst.
    inversion Hall as [|? ? Hv Hall']; subst. cbn [snd] in Hv.
    destruct (leaf v) as [s|] eqn:Hs; [|congruence].
    cbn [each_from fst snd field_prefix String.eqb].
    rewrite (flatten_leaf _ _ _ _ Hs).
    destruct (IH Hnd' Hall' (S i) (set name s output)) as [r [Hr Hk]].
    exists r. split; [exact Hr|]. intros k. split.
    + intros Hn. cbn [List.map fst In] in Hn.
      rewrite (proj1 (Hk k)) by tauto.
      apply get_set_ne. intros ->. tauto.
    + intros val [Heq|Hin].
      * inversion Heq; subst. rewrite (proj1 (Hk k) Hnotin).
        now rewrite get_set_eq.
      * apply (proj2 (Hk k)), Hin.
Qed.

(** X16. For a struct whose fields all hold a value of a primitive kind or
    a nil slice, [Flatten] returns a map with one entry per field: under
    the name of the field, the string for its value, and nothing under any
    other key. *)
Theorem Flatten_flat_struct (fields : list (string * value)) :
  NoDup (List.map fst fields) ->
  Forall (fun nv => leaf (snd nv) <> None) fields ->
  exists r,
    Flatten (Struct fields) = Some (Some r)
    /\ (forall name val, In (name, val) fields -> get name r = leaf val)
    /\ (forall k, ~ In k (List.map fst fields) -> get k r = None).
Proof.
  intros Hnd Hall.
  destruct (flatten_fields_leaves fields Hnd Hall 0%nat []) as [r [Hr Hk]].
  exists r. unfold diff.Flatten. cbn [IsValid diff.flatten].
  rewrite Hr. split; [reflexivity|]. split.
  - intros name val Hin. apply (proj2 (Hk name)), Hin.
  - intros k Hn. now rewrite (proj1 (Hk k) Hn).
Qed.

End FlattenProps.

Lemma flatten_writes_under_prefix_witness :
  diff.get "c" [("a.B", "1"); ("c", "9")]%string
  = diff.get "c" [("c", "9")]%string.
Proof.
  apply (flatten_writes_under_prefix unit unit (fun _ => "0"%string)
           (fun _ => "0"%string) "a"
           (diff.Struct [("B"%string, diff.Int 1)])
           [("c", "9")]%string [("a.B", "1"); ("c", "9")]%string "c");
    reflexivity.
Defined.

Lemma flatten_merges_witness :
  exists r,
    diff.flatten unit unit (fun _ => "0"%string) (fun _ => "0"%string) "a"
      (diff.Array [diff.Bool true; diff.Slice None])
      [("a[0]", "old"); ("c", "9")]%string = Some r
    /\ diff.get "a[0]" r = Some "true"%string
    /\ diff.get "c" r = Some "9"%string.
Proof.
  destruct (flatten_merges unit unit (fun _ => "0"%string)
              (fun _ => "0"%string) "a"
              (diff.Array [diff.Bool true; diff.Slice None])
              [("a[1]", "nil"); ("a[0]", "true")]%string eq_refl
              [("a[0]", "old"); ("c", "9")]%string) as [r [Hr Hk]].
  exists r. split; [exact Hr|]. split; rewrite Hk; reflexivity.
Defined.

Lemma Flatten_flat_struct_witness :
  exists r,
    diff.Flatten unit unit (fun _ => "0"%string) (fun _ => "0"%string)
      (diff.Struct [("ID"%string, diff.Str "web");
                    ("Count"%string, diff.Int (-3));
                    ("Tags"%string, diff.Slice None)])
    = Some (Some r)
    /\ diff.get "Count" r = Some "-3"%string
    /\ diff.get "Name" r = None.
Proof.
  destruct (Flatten_flat_struct unit unit (fun _ => "0"%string)
              (fun _ => "0"%string)
              [("ID"%string, diff.Str "web"); ("Count"%string, diff.Int (-3));
               ("Tags"%string, diff.Slice None)])
    as [r [Hr [Hin Hout]]].
  - repeat constructor; cbn; intuition discriminate.
  - repeat constructor; discriminate.
  - exists r. split; [exact Hr|]. split.
    + rewrite (Hin "Count"%string (diff.Int (-3))); [reflexivity|].
      right. left. reflexivity.
    + apply Hout. cbn. intuition discriminate.
Defined.

(** * The decoder loop on its bounded channel *)

Section GoroutineProps.

Import StreamFrame AllocFS StreamGoroutine ReaderState.

Variable cancelled : nat -> bool.
Variable takes : nat -> nat.

Lemma filter_live_snoc (l : list StreamFrame.t) (fr : StreamFrame.t) :
  filter live (l ++ [fr])
  = filter live l ++ (if IsHeartbeat fr then [] else [fr]).
Proof.
  rewrite filter_app. cbn [filter]. unfold live at 2.
  now destruct (IsHeartbeat fr).
Qed.

Lemma delivered_receive (n : nat) (c : Chan.t StreamFrame.t)
    (got sn : list StreamFrame.t) :
  delivered (State (fst (receive n c got)) (snd (receive n c got)) sn)
  = got ++ Chan.queue c.
Proof.
  unfold delivered, receive. cbn. now rewrite <- app_assoc, firstn_skipn.
Qed.

(** What the loop does from any iteration on, started with the channel
    open, at most ten frames buffered, and the live frames seen so far
    delivered. *)
Lemma loop_spec (body : list StreamFrame.t) :
  forall (i : nat) (st : state),
    Chan.closed (frames st) = false ->
    (List.length (Chan.queue (frames st)) <= capacity)%nat ->
    delivered st = filter live (seen st) ->
    let r := loop cancelled takes i body st in
    (exists pre rest, body = pre ++ rest /\ seen (snd r) = seen st ++ pre)
    /\ match fst r with
       | Returned =>
           delivered (snd r) = filter live (seen (snd r))
           /\ seen (snd r) = seen st ++ decoded cancelled i body
       | Stuck fr =>
           filter live (seen (snd r)) = delivered (snd r) ++ [fr]
           /\ IsHeartbeat fr = false
           /\ List.length (Chan.queue (frames (snd r))) = capacity
       | Panicked => False
       end
    /\ (Chan.closed (frames (snd r)) = true
        <-> (forall j, (i <= j <= i + List.length body)%nat ->
                       cancelled j = false)
            /\ fst r = Returned)
    /\ ((forall j, (1 <= takes j)%nat) -> fst r = Returned).
Proof.
  induction body as [|frame rest IH]; intros i st Hopen Hcap Hdel;
    cbn [loop decoded].
  - (* the decoder fails *)
    destruct (cancelled i) eqn:Hi; cbv zeta; cbn [fst snd].
    + split; [exists [], []; split; [reflexivity|now rewrite app_nil_r]|].
      split; [split; [exact Hdel|now rewrite app_nil_r]|].
      split; [|reflexivity]. rewrite Hopen.
      split; [discriminate|]. intros [H _].
      rewrite (H i) in Hi by (cbn; lia). discriminate.
    + unfold Chan.close. rewrite Hopen. cbn [fst snd frames seen].
      split; [exists [], []; split; [reflexivity|now rewrite app_nil_r]|].
      split; [split; [exact Hdel|now rewrite app_nil_r]|].
      split; [|reflexivity]. cbn.
      split; [intros _|reflexivity]. split; [|reflexivity].
      intros j Hj. replace j with i by (cbn in Hj; lia). exact Hi.
  - destruct (cancelled i) eqn:Hi.
    + (* cancelled *)
      cbv zeta. cbn [fst snd].
      split; [exists [], (frame :: rest); split; [reflexivity|now rewrite app_nil_r]|].
      split; [split; [exact Hdel|now rewrite app_nil_r]|].
      split; [|reflexivity]. rewrite Hopen.
      split; [discriminate|]. intros [H _].
      rewrite (H i) in Hi by (cbn; lia). discriminate.
    + assert (Hstep : forall st',
                Chan.closed (frames st') = false ->
                (List.length (Chan.queue (frames st')) <= capacity)%nat ->
                delivered st' = filter live (seen st') ->
                seen st' = seen st ++ [frame] ->
                let r := loop cancelled takes (S i) rest st' in
                (exists pre rest0,
                    frame :: rest = pre ++ rest0
                    /\ seen (snd r) = seen st ++ pre)
                /\ match fst r with
                   | Returned =>
                       delivered (snd r) = filter live (seen (snd r))
                       /\ seen (snd r)
                          = seen st ++ frame :: decoded cancelled (S i) rest
                   | Stuck fr =>
                       filter live (seen (snd r)) = delivered (snd r) ++ [fr]
                       /\ IsHeartbeat fr = false
                       /\ List.length (Chan.queue (frames (snd r))) = capacity
                   | Panicked => False
                   end
                /\ (Chan.closed (frames (snd r)) = true
                    <-> (forall j,
                            (i <= j <= i + List.length (frame :: rest))%nat ->
                            cancelled j = false)
                        /\ fst r = Returned)
                /\ ((forall j, (1 <= takes j)%nat) -> fst r = Returned)).
      { intros st' Ho' Hc' Hd' Hs'.
        destruct (IH (S i) st' Ho' Hc' Hd') as [[pre [rest0 [Hb Hp]]] [Hm [Hcl Hk]]].
        cbv zeta. split.
        - exists (frame :: pre), rest0. split; [cbn; now rewrite Hb|].
          rewrite Hp, Hs', <- app_assoc. reflexivity.
        - split.
          + destruct (fst (loop cancelled takes (S i) rest st')); [|exact Hm|exact Hm].
            destruct Hm as [Hm1 Hm2]. split; [exact Hm1|].
            rewrite Hm2, Hs', <- app_assoc. reflexivity.
          + split; [|exact Hk]. rewrite Hcl. cbn [List.length].
            split; intros [H He]; (split; [|exact He]); intros j Hj.
            * destruct (Nat.eq_dec j i) as [->|Hne]; [exact Hi|].
              apply H. lia.
            * apply H. lia. }
      destruct (IsHeartbeat frame) eqn:Hb.
      * (* a heartbeat is dropped *)
        apply Hstep; cbn [frames seen]; auto.
        unfold delivered in *. cbn [received frames seen].
        rewrite filter_live_snoc, Hb, app_nil_r. exact Hdel.
      * (* a frame is sent *)
        destruct (receive (takes i) (frames st) (received st)) as [c got] eqn:Hr.
        assert (Hc : Chan.closed c = false
                     /\ (List.length (Chan.queue c)
                         <= List.length (Chan.queue (frames st)) - takes i)%nat
                     /\ got ++ Chan.queue c = delivered st).
        { unfold receive in Hr. inversion Hr; subst. cbn.
          split; [exact Hopen|]. split; [rewrite length_skipn; lia|].
          unfold delivered. now rewrite <- app_assoc, firstn_skipn. }
        destruct Hc as [Hco [Hcl Hcd]].
        unfold send. rewrite Hco.
        destruct (Nat.ltb_spec (List.length (Chan.queue c)) capacity) as [Hlt|Hge].
        -- apply Hstep; cbn [frames seen received Chan.queue Chan.closed]; auto.
           ++ rewrite List.length_app. cbn [List.length]. lia.
           ++ unfold delivered. cbn [received frames seen Chan.queue].
              rewrite filter_live_snoc, Hb, app_assoc, Hcd, Hdel. reflexivity.
        -- (* the buffer is full and stays so *)
           cbv zeta. cbn [fst snd frames seen received].
           split; [exists [frame], rest; split; reflexivity|].
           split.
           { split; [|split; [exact Hb|lia]].
             unfold delivered. cbn [received frames seen].
             rewrite filter_live_snoc, Hb, Hcd, Hdel. reflexivity. }
           split.
           { rewrite Hco. split; [discriminate|]. intros [_ H]. discriminate. }
           intros Hk. pose proof (Hk i) as Hki.
           unfold capacity in *. lia.
Qed.

Lemma run_spec (body : list StreamFrame.t) :
  let r := run cancelled takes body in
  (exists pre rest, body = pre ++ rest /\ seen (snd r) = pre)
  /\ match fst r with
     | Returned =>
         delivered (snd r) = filter live (seen (snd r))
         /\ seen (snd r) = decoded cancelled 0%nat body
     | Stuck fr =>
         filter live (seen (snd r)) = delivered (snd r) ++ [fr]
         /\ IsHeartbeat fr = false
         /\ List.length (Chan.queue (frames (snd r))) = capacity
     | Panicked => False
     end
  /\ (Chan.closed (frames (snd r)) = true
      <-> never_cancelled cancelled (List.length body) /\ fst r = Returned)
  /\ ((forall j, (1 <= takes j)%nat) -> fst r = Returned).
Proof.
  unfold run.
  destruct (loop_spec body 0%nat (State Chan.make [] []) eq_refl)
    as [H1 [H2 [H3 H4]]]; [cbn; unfold capacity; lia|reflexivity|].
  cbn [seen app] in *. cbv zeta.
  split; [exact H1|]. split; [exact H2|]. split; [|exact H4].
  rewrite H3. unfold never_cancelled.
  split; intros [H He]; (split; [|exact He]); intros j Hj; apply H; lia.
Qed.

(** C3, as amended.  The decoder loop of [Stream] never delivers a
    heartbeat, and delivers on the frames channel, in the order decoded,
    every decoded frame that is not a heartbeat, with one exception: a
    frame decoded while ten frames are buffered and the reader receives no
    more stays in its send for ever, undelivered, and the loop does not
    return.  With a reader that keeps receiving the loop returns and every
    decoded frame that is not a heartbeat has been delivered. *)
Theorem Stream_goroutine_delivers (body : list StreamFrame.t) :
  let r := run cancelled takes body in
  (exists rest, body = seen (snd r) ++ rest)
  /\ (forall fr, In fr (delivered (snd r)) ->
                 IsHeartbeat fr = false /\ In fr (seen (snd r)))
  /\ match fst r with
     | Returned => delivered (snd r) = filter live (seen (snd r))
     | Stuck fr =>
         filter live (seen (snd r)) = delivered (snd r) ++ [fr]
         /\ List.length (Chan.queue (frames (snd r))) = capacity
     | Panicked => False
     end
  /\ ((forall i, (1 <= takes i)%nat) ->
      fst r = Returned
      /\ seen (snd r) = decoded cancelled 0%nat body
      /\ forall fr, In fr (seen (snd r)) -> IsHeartbeat fr = false ->
                    In fr (delivered (snd r))).
Proof.
  destruct (run_spec body) as [[pre [rest [Hb Hp]]] [Hm [_ Hk]]].
  cbv zeta.
  set (r := run cancelled takes body) in *.
  assert (Hsub : forall fr, In fr (delivered (snd r)) ->
                            In fr (filter live (seen (snd r)))).
  { intros fr Hin. destruct (fst r) as [|fr0|].
    - destruct Hm as [Hm _]. now rewrite <- Hm.
    - destruct Hm as [Hm _]. rewrite Hm. apply in_or_app. now left.
    - destruct Hm. }
  split; [exists rest; now rewrite Hp|].
  split.
  { intros fr Hin. apply Hsub, filter_In in Hin. destruct Hin as [Hin Hl].
    split; [now apply negb_true_iff|exact Hin]. }
  split.
  { destruct (fst r) as [|fr0|]; [tauto|tauto|exact Hm]. }
  intros Hall. specialize (Hk Hall). rewrite Hk in Hm.
  destruct Hm as [Hd Hs]. split; [exact Hk|]. split; [exact Hs|].
  intros fr Hin Hl. rewrite Hd. apply filter_In. split; [exact Hin|].
  unfold live. now rewrite Hl.
Qed.


(** With a reader that keeps receiving, the goroutine ends as the loop
    with no full buffer does: it returns, and the frames delivered and the
    state of the channel are those of [Stream]. *)
Lemma run_keeps_up (body : list StreamFrame.t) :
  (forall i, (1 <= takes i)%nat) ->
  exists c,
    Stream cancelled body = Ret c
    /\ fst (run cancelled takes body) = Returned
    /\ delivered (snd (run cancelled takes body)) = Chan.queue c
    /\ Chan.closed (frames (snd (run cancelled takes body))) = Chan.closed c.
Proof.
  intros Hall.
  destruct (run_spec body) as [_ [Hm [Hc Hk]]].
  specialize (Hk Hall). rewrite Hk in Hm, Hc. destruct Hm as [Hd Hs].
  destruct (Stream_loop_queue cancelled body 0%nat Chan.make eq_refl)
    as [c [HS Hq]].
  destruct (Stream_loop_closed cancelled body 0%nat Chan.make eq_refl)
    as [c' [HS' Hcl]].
  unfold Stream. rewrite HS in HS'. inversion HS'; subst c'.
  exists c. split; [exact HS|]. split; [exact Hk|].
  split; [rewrite Hd, Hs, Hq; reflexivity|].
  destruct (Chan.closed c) eqn:E.
  - apply Hc. split; [|reflexivity]. intros j Hj.
    apply (proj1 Hcl eq_refl). lia.
  - apply not_true_iff_false. intros Ht. apply Hc in Ht.
    destruct Ht as [Hn _].
    assert (Hf : false = true) by (apply Hcl; intros j Hj; apply Hn; lia).
    discriminate.
Qed.

End GoroutineProps.

Lemma Stream_goroutine_delivers_witness :
  let r := StreamGoroutine.run (fun _ => false) (fun _ => 1%nat)
             (StreamFrame.zero :: StreamGoroutine.eleven) in
  fst r = StreamGoroutine.Returned
  /\ StreamGoroutine.delivered (snd r) = StreamGoroutine.eleven.
Proof.
  cbv zeta.
  destruct (Stream_goroutine_delivers (fun _ => false) (fun _ => 1%nat)
              (StreamFrame.zero :: StreamGoroutine.eleven))
    as [_ [_ [Hm Hk]]].
  destruct Hk as [Hr _]; [intros i; lia|].
  split; [exact Hr|]. rewrite Hr in Hm. rewrite Hm. reflexivity.
Defined.

(** Eleven data frames and a reader that never receives: the eleventh
    frame is decoded, is no heartbeat, and is not delivered; the loop is
    stuck in its send. *)
Lemma Stream_goroutine_stuck_counterexample :
  let r := StreamGoroutine.run (fun _ => false) (fun _ => 0%nat)
             StreamGoroutine.eleven in
  fst r = StreamGoroutine.Stuck (StreamGoroutine.numbered 10)
  /\ In (StreamGoroutine.numbered 10) (StreamGoroutine.seen (snd r))
  /\ StreamFrame.IsHeartbeat (StreamGoroutine.numbered 10) = false
  /\ ~ In (StreamGoroutine.numbered 10) (StreamGoroutine.delivered (snd r)).
Proof.
  cbv zeta. split; [reflexivity|]. split; [vm_compute; tauto|].
  split; [reflexivity|].
  vm_compute. intros H.
  repeat (destruct H as [H|H]; [discriminate|]). exact H.
Qed.

